(** * Boden: the layout coordinator and the thread handle

    A shallow embedding of [src/common/LayoutCoordinator.cpp],
    [include/common/bdn/LayoutCoordinator.h] and [include/bdn/Thread.h],
    with the properties of the scheduling engine and of the thread
    life cycle stated and proved over it. *)

From stdpp Require Import gmap list sorting.

(** ** [std::sort] with a comparison object

    [std::sort(first, last, comp)] asks of [comp] that it be a strict weak
    ordering; where it is not, what the call does is undefined.  The model
    takes the call to be defined when [comp] does not hold in both
    directions between two items at different places of the list, which is
    what the library compares, and [None] stands for a call that is not.
    For [ToDo::operator<] every call is defined.  For the lambda of the
    sizing loop, which holds of every item and itself, a call is defined
    when no item is on the list twice; with an item on it twice the
    library may read past the list.  A defined call is modelled by an
    insertion sort driven by [comp] alone: for the two comparison objects
    of the coordinator the result is the only sorted arrangement of the
    input (see [insertion_sort_unique] below), so the choice of algorithm
    is not observable. *)
Section std_sort.
Context {A : Type} (comp : A → A → bool).

Fixpoint sorted_insert (x : A) (l : list A) : list A :=
  match l with
  | [] => [x]
  | y :: l' => if comp x y then x :: y :: l' else y :: sorted_insert x l'
  end.

Definition insertion_sort (l : list A) : list A := foldr sorted_insert [] l.

(** [comp] holds in at most one direction between any two items at
    different places of the list. *)
Fixpoint strict_on (l : list A) : bool :=
  match l with
  | [] => true
  | x :: l' => forallb (λ y, negb (comp x y && comp y x)) l' && strict_on l'
  end.

Definition std_sort (l : list A) : option (list A) :=
  if strict_on l then Some (insertion_sort l) else None.

(** [comp a b] or [a = b]: the order in which a comparison object
    leaves the elements. *)
Definition comp_le (a b : A) : Prop := comp a b = true ∨ a = b.
End std_sort.

(** A [P<View>] is compared and ordered by the address it holds. *)
Definition View : Set := positive.

(** The view tree, as far as the coordinator reads it: the parent link of
    every view that has one ([getParentView() != nullptr]). *)
Definition getParentView (hierarchy : gmap View View) (pView : View) : option View :=
  hierarchy !! pView.

(** [struct ToDo] of [mainThreadUpdateNow]. *)
Record ToDo : Set := mkToDo { pView : View; level : nat }.

(** The [while(pCurrParent!=nullptr)] loop of the [ToDo] constructor.  The
    loop does not end on a cyclic parent chain; [None] stands for that. *)
Fixpoint countParents (fuel : nat) (hierarchy : gmap View View)
    (pCurrParent : option View) : option nat :=
  match pCurrParent with
  | None => Some 0
  | Some p =>
      match fuel with
      | 0 => None
      | S fuel' => S <$> countParents fuel' hierarchy (getParentView hierarchy p)
      end
  end.

(** [ToDo::ToDo(const P<View>&)]; the count that the constructor keeps in
    [_level] is the member [level].  It is an [int] in the source and never
    negative.  A chain without a cycle has at most [size hierarchy] links,
    each of its views but the last being a key ([ToDo_new_rooted]). *)
Definition ToDo_new (hierarchy : gmap View View) (v : View) : option ToDo :=
  mkToDo v <$> countParents (size hierarchy) hierarchy (getParentView hierarchy v).

(** [ToDo::operator<]. *)
Definition ToDo_lt (a o : ToDo) : bool :=
  (level a <? level o) || ((level a =? level o) && (pView a <? pView o)%positive).

(** The lambda given to [std::sort] in the sizing loop: [!(a<b)]. *)
Definition ToDo_inverted (a b : ToDo) : bool := negb (ToDo_lt a b).

(** The members of [class LayoutCoordinator]. *)
Record Coordinator : Type := mkCoordinator {
  _sizingInfoSet : gset View;
  _layoutSet : gset View;
  _updateScheduled : bool
}.

(** What [asyncCallFromMainThread] holds for the main thread: the only
    closure the coordinator ever passes to it is the lambda of
    [needUpdate]. *)
Inductive Closure : Set := DeferredUpdate.

(** What a view's callback asks of the coordinator while it runs. *)
Inductive Call : Set :=
  | CallNeedsSizingInfoUpdate (v : View)
  | CallNeedsLayout (v : View).

(** What the drain does to the views, in order. *)
Inductive Event : Set :=
  | EvUpdateSizingInfo (v : View)
  | EvLayout (v : View).

Global Instance Event_eq_dec : EqDecision Event.
Proof. solve_decision. Defined.
Global Instance ToDo_eq_dec : EqDecision ToDo.
Proof. solve_decision. Defined.

(** The coordinator's members are read and written under [_mutex] only, so
    a critical section is one step of the model; what any thread asks of
    the coordinator while a view callback runs is part of what is asked
    during that callback. *)
Section Coordinator.
(** The rest of the application, which the view callbacks read and
    change. *)
Context {U : Type}.

Record Ui : Type := mkUi { hierarchy : gmap View View; user : U }.

Record World : Type := mkWorld {
  coord : Coordinator;
  mainQueue : list Closure;
  ui : Ui
}.

(** [View::mainThreadUpdateSizingInfo] and [View::mainThreadLayout]: a
    callback changes the application, the view tree included, and calls
    the coordinator any number of times. *)
Context (mainThreadUpdateSizingInfo mainThreadLayout : View → Ui → Ui * list Call).

Definition with_coord (c : Coordinator) (w : World) : World :=
  mkWorld c (mainQueue w) (ui w).
Definition with_ui (u : Ui) (w : World) : World :=
  mkWorld (coord w) (mainQueue w) u.

(** [LayoutCoordinator::needUpdate]. *)
Definition needUpdate (w : World) : World :=
  if _updateScheduled (coord w) then w
  else
    mkWorld
      (mkCoordinator (_sizingInfoSet (coord w)) (_layoutSet (coord w)) true)
      (mainQueue w ++ [DeferredUpdate])
      (ui w).

(** [LayoutCoordinator::viewNeedsSizingInfoUpdate]: [_sizingInfoSet.add]
    puts the view into the [std::set]. *)
Definition viewNeedsSizingInfoUpdate (v : View) (w : World) : World :=
  needUpdate
    (with_coord
       (mkCoordinator ({[v]} ∪ _sizingInfoSet (coord w)) (_layoutSet (coord w))
          (_updateScheduled (coord w))) w).

(** [LayoutCoordinator::viewNeedsLayout]. *)
Definition viewNeedsLayout (v : View) (w : World) : World :=
  needUpdate
    (with_coord
       (mkCoordinator (_sizingInfoSet (coord w)) ({[v]} ∪ _layoutSet (coord w))
          (_updateScheduled (coord w))) w).

Definition doCall (w : World) (c : Call) : World :=
  match c with
  | CallNeedsSizingInfoUpdate v => viewNeedsSizingInfoUpdate v w
  | CallNeedsLayout v => viewNeedsLayout v w
  end.

(** One view callback run to its end on the main thread. *)
Definition invoke (callback : View → Ui → Ui * list Call) (v : View) (w : World) : World :=
  foldl doCall (with_ui (callback v (ui w)).1 w) (callback v (ui w)).2.

(** [newlyAddedSet = _sizingInfoSet; _sizingInfoSet.clear();] under the
    coordinator's mutex. *)
Definition clearSizingInfoSet (w : World) : World :=
  with_coord
    (mkCoordinator ∅ (_layoutSet (coord w)) (_updateScheduled (coord w))) w.

(** The body of either [while(true)] loop up to the test of
    [toDoList.empty()]: the new requests are appended at [toDoList.end()],
    a [ToDo] being made of each with its level taken under the global UI
    mutex, and the list is sorted again.  The set is walked in the order
    of [elements]; the sort that follows makes that order unobservable.
    [None]: the parent chain of a new view runs in a circle, or the call
    of [std::sort] is undefined. *)
Definition addNewRequests (comp : ToDo → ToDo → bool)
    (newlyAddedSet : gset View) (hier : gmap View View)
    (toDoList : list ToDo) : option (list ToDo) :=
  if decide (newlyAddedSet = ∅) then Some toDoList
  else
    added ← mapM (ToDo_new hier) (elements newlyAddedSet);
    std_sort comp (toDoList ++ added).

(** The requests a pass copies, under the coordinator's mutex, before it
    clears them: [newlyAddedSet = _sizingInfoSet], in the first loop and
    in the second. *)
Definition newlyAddedSet (w : World) : gset View := _sizingInfoSet (coord w).

(** Either [while(true)] loop of [mainThreadUpdateNow].  Both loops, as
    written, copy and clear [_sizingInfoSet]; they differ in the
    comparison object given to [std::sort] and in the callback invoked.
    [None] is a run that has not ended within [fuel] iterations, or one
    that has come to a call of [std::sort] that is undefined. *)
Fixpoint updateLoop (comp : ToDo → ToDo → bool)
    (callback : View → Ui → Ui * list Call) (event : View → Event)
    (fuel : nat) (toDoList : list ToDo) (w : World) : option (World * list Event) :=
  match fuel with
  | 0 => None
  | S fuel' =>
      let w1 := clearSizingInfoSet w in
      toDoList1 ← addNewRequests comp (newlyAddedSet w) (hierarchy (ui w1)) toDoList;
      match toDoList1 with
      | [] => Some (w1, [])
      | toDo :: rest =>
          r ← updateLoop comp callback event fuel' rest (invoke callback (pView toDo) w1);
          Some (r.1, event (pView toDo) :: r.2)
      end
  end.

(** The first loop: sizing information, children first. *)
Definition sizingLoop : nat → list ToDo → World → option (World * list Event) :=
  updateLoop ToDo_inverted mainThreadUpdateSizingInfo EvUpdateSizingInfo.

(** The second loop: layout, parents first. *)
Definition layoutLoop : nat → list ToDo → World → option (World * list Event) :=
  updateLoop ToDo_lt mainThreadLayout EvLayout.

(** [LayoutCoordinator::mainThreadUpdateNow]. *)
Definition mainThreadUpdateNow (fuel : nat) (w : World) : option (World * list Event) :=
  a ← sizingLoop fuel [] w;
  b ← layoutLoop fuel [] a.1;
  Some (b.1, a.2 ++ b.2).

(** [LayoutCoordinator::updateNow]. *)
Definition updateNow (isCurrentMain : bool) (fuel : nat) (w : World)
    : option (World * list Event) :=
  if isCurrentMain then mainThreadUpdateNow fuel w else Some (w, []).

(** The lambda that [needUpdate] queues, when the main thread runs it. *)
Definition deferredUpdate (fuel : nat) (w : World) : option (World * list Event) :=
  mainThreadUpdateNow fuel
    (with_coord
       (mkCoordinator (_sizingInfoSet (coord w)) (_layoutSet (coord w)) false) w).

(** The main thread takes the next closure from its queue and runs it. *)
Definition runQueued (fuel : nat) (w : World) : option (World * list Event) :=
  match mainQueue w with
  | [] => Some (w, [])
  | DeferredUpdate :: queue => deferredUpdate fuel (mkWorld (coord w) queue (ui w))
  end.

(** The passes of a loop taken one at a time: the working list and the
    world with which the pass that follows [n] pops starts.  [None]: the
    loop has left at [break] before, or a sort on the way is undefined. *)
Fixpoint passState (comp : ToDo → ToDo → bool)
    (callback : View → Ui → Ui * list Call)
    (n : nat) (toDoList : list ToDo) (w : World) : option (list ToDo * World) :=
  match n with
  | 0 => Some (toDoList, w)
  | S n' =>
      let w1 := clearSizingInfoSet w in
      toDoList1 ← addNewRequests comp (newlyAddedSet w) (hierarchy (ui w1)) toDoList;
      match toDoList1 with
      | [] => None
      | toDo :: rest => passState comp callback n' rest (invoke callback (pView toDo) w1)
      end
  end.

(** [toDoList] as that pass tests it with [toDoList.empty()]: the new
    requests added and the list sorted again. *)
Definition workingList (comp : ToDo → ToDo → bool)
    (callback : View → Ui → Ui * list Call)
    (n : nat) (toDoList : list ToDo) (w : World) : option (list ToDo) :=
  st ← passState comp callback n toDoList w;
  addNewRequests comp (newlyAddedSet st.2) (hierarchy (ui st.2)) st.1.

(** [toDoList.front()] of that pass, the item whose callback it invokes. *)
Definition poppedAt (comp : ToDo → ToDo → bool)
    (callback : View → Ui → Ui * list Call)
    (n : nat) (toDoList : list ToDo) (w : World) : option ToDo :=
  workingList comp callback n toDoList w ≫= head.

End Coordinator.

Arguments Ui : clear implicits.
Arguments World : clear implicits.

(** ** Vocabulary of the coordinator's properties *)

(** Some occurrence of [e1] comes before some occurrence of [e2]. *)
Definition invokedBefore (e1 e2 : Event) (trace : list Event) : Prop :=
  ∃ l1 l2 l3, trace = l1 ++ e1 :: l2 ++ e2 :: l3.

(** How often a callback was invoked. *)
Definition invocations (e : Event) (trace : list Event) : nat :=
  length (filter (λ x, x = e) trace).

(** [a] is reached from [d] by [hops] parent links. *)
Fixpoint ancestorAt (hier : gmap View View) (hops : nat) (d : View) : option View :=
  match hops with
  | 0 => Some d
  | S n => getParentView hier d ≫= ancestorAt hier n
  end.

(** The views from [v] upwards, [hops] of them. *)
Fixpoint parentChain (hier : gmap View View) (hops : nat) (v : View) : list View :=
  match hops with
  | 0 => []
  | S n => v :: match getParentView hier v with
                | Some p => parentChain hier n p
                | None => []
                end
  end.

(** A freshly constructed coordinator, with nothing queued for the main
    thread. *)
Definition newWorld {U} (u : Ui U) : World U :=
  mkWorld (mkCoordinator ∅ ∅ false) [] u.

(** The deferred callbacks of this coordinator that are queued and have not
    started, against the flag. *)
Definition scheduledOnce {U} (w : World U) : Prop :=
  mainQueue w = if _updateScheduled (coord w) then [DeferredUpdate] else [].

(** From [w] to [w'] nothing was taken from the main thread's queue, the
    flag was not cleared and no layout request was dropped. *)
Definition onlySchedules {U} (w w' : World U) : Prop :=
  (_updateScheduled (coord w) = true → _updateScheduled (coord w') = true) ∧
  mainQueue w `prefix_of` mainQueue w' ∧
  _layoutSet (coord w) ⊆ _layoutSet (coord w') ∧
  (scheduledOnce w → scheduledOnce w').

(** The steps in which the world of a coordinator changes, whichever
    thread takes them and in whatever order: a call of
    [viewNeedsSizingInfoUpdate] or [viewNeedsLayout]; the critical section
    at the start of the deferred callback, once the main thread has taken
    it from its queue; the critical section at the start of a pass of
    either loop; and whatever the application does to itself. *)
Inductive coordinatorStep {U} : World U → World U → Prop :=
  | StepCall w c : coordinatorStep w (doCall w c)
  | StepDeferredStart w queue :
      mainQueue w = DeferredUpdate :: queue →
      coordinatorStep w
        (mkWorld (mkCoordinator (_sizingInfoSet (coord w)) (_layoutSet (coord w)) false)
           queue (ui w))
  | StepCopyAndClear w : coordinatorStep w (clearSizingInfoSet w)
  | StepApplication w u : coordinatorStep w (with_ui u w).

(** What the threads of a program do with a coordinator, one critical
    section or one main-thread run at a time. *)
Inductive Op : Set :=
  | OpViewNeedsSizingInfoUpdate (v : View)
  | OpViewNeedsLayout (v : View)
  | OpUpdateNow (isCurrentMain : bool)
  | OpRunQueued.

Section Program.
Context {U : Type}.
Context (mainThreadUpdateSizingInfo mainThreadLayout : View → Ui U → Ui U * list Call).

Definition runOp (fuel : nat) (w : World U) (op : Op) : option (World U) :=
  match op with
  | OpViewNeedsSizingInfoUpdate v => Some (viewNeedsSizingInfoUpdate v w)
  | OpViewNeedsLayout v => Some (viewNeedsLayout v w)
  | OpUpdateNow isCurrentMain =>
      fst <$> updateNow mainThreadUpdateSizingInfo mainThreadLayout isCurrentMain fuel w
  | OpRunQueued =>
      fst <$> runQueued mainThreadUpdateSizingInfo mainThreadLayout fuel w
  end.

Fixpoint runOps (fuel : nat) (w : World U) (ops : list Op) : option (World U) :=
  match ops with
  | [] => Some w
  | op :: ops' => runOp fuel w op ≫= λ w', runOps fuel w' ops'
  end.
End Program.

(** A callback that touches nothing and asks for nothing. *)
Definition quietCallback {U} : View → Ui U → Ui U * list Call := λ _ u, (u, []).

(** A sizing callback under which view [a] asks for view [b] as long as
    the application, which counts down, lets it. *)
Definition countdownCallback (a b : View) : View → Ui nat → Ui nat * list Call :=
  λ v u,
    if decide (v = a) then
      match user u with
      | 0 => (u, [])
      | S n => (mkUi (hierarchy u) n, [CallNeedsSizingInfoUpdate b])
      end
    else (u, []).

(** A callback under which view [a] asks for new sizing information for
    each of the views [bs], as long as the application lets it. *)
Definition countdownCallbacks (a : View) (bs : list View)
    : View → Ui nat → Ui nat * list Call :=
  λ v u,
    if decide (v = a) then
      match user u with
      | 0 => (u, [])
      | S n => (mkUi (hierarchy u) n, CallNeedsSizingInfoUpdate <$> bs)
      end
    else (u, []).

(** Root(1) with child A(2), A with child B(3), B with child C(4). *)
Definition chainTree : gmap View View :=
  {[ 2%positive := 1%positive; 3%positive := 2%positive; 4%positive := 3%positive ]}.

(** Views 5 and 6 have no parent: they are not keys of the map. *)
Definition chainUi : Ui unit := mkUi chainTree tt.

(** Views 5 and 6, both at level 0, ask for new sizing information, 6 first. *)
Definition twoRootsPending : World unit :=
  viewNeedsSizingInfoUpdate 5%positive
    (viewNeedsSizingInfoUpdate 6%positive (newWorld chainUi)).

(** C(4) and A(2) ask for new sizing information in one stretch of code. *)
Definition leafAndInnerPending : World unit :=
  viewNeedsSizingInfoUpdate 2%positive
    (viewNeedsSizingInfoUpdate 4%positive (newWorld chainUi)).

(** Views without parents; view 5 asks for new sizing information, and
    its callback will ask once for view 6, which lies on the same level. *)
Definition cascadePending : World nat :=
  viewNeedsSizingInfoUpdate 5%positive (newWorld (mkUi ∅ 1)).

(** The chain again; A(2) and view 5, which has no parent, ask for new
    sizing information, and the callback of A will ask once for C(4). *)
Definition resortPending : World nat :=
  viewNeedsSizingInfoUpdate 5%positive
    (viewNeedsSizingInfoUpdate 2%positive (newWorld (mkUi chainTree 1))).

(** The chain once more; view 5 asks for new sizing information, and its
    callback will ask once for A(2) and for C(4). *)
Definition chainCascadePending : World nat :=
  viewNeedsSizingInfoUpdate 5%positive (newWorld (mkUi chainTree 1)).

(** A container, view 1, with seventeen children, views 2 to 18. *)
Definition children : list View := Pos.of_nat <$> seq 2 17.

Definition familyTree : gmap View View :=
  list_to_map ((λ child, (child, 1%positive)) <$> children).

(** A sizing callback that tells the coordinator that the size of the
    view's container may have changed with that of the view. *)
Definition askParentCallback : View → Ui unit → Ui unit * list Call :=
  λ v u,
    (u, match getParentView (hierarchy u) v with
        | Some pParent => [CallNeedsSizingInfoUpdate pParent]
        | None => []
        end).

(** The seventeen children ask for new sizing information. *)
Definition familyPending : World unit :=
  foldr viewNeedsSizingInfoUpdate (newWorld (mkUi familyTree tt)) children.

(** Requests from several places, the deferred callback in between, and
    a call of [updateNow] off the main thread. *)
Definition sampleProgram : list Op :=
  [OpViewNeedsSizingInfoUpdate 4%positive; OpViewNeedsLayout 2%positive;
   OpViewNeedsSizingInfoUpdate 2%positive; OpRunQueued;
   OpViewNeedsLayout 1%positive; OpUpdateNow false].

(** Root(1) and its child A(2) ask for a layout. *)
Definition parentChildLayoutPending : World unit :=
  viewNeedsLayout 2%positive (viewNeedsLayout 1%positive (newWorld chainUi)).

(** The views for which a list of calls asks for new sizing information,
    and those for which it asks for a layout. *)
Definition requestedSizing (calls : list Call) : gset View :=
  list_to_set (omap (λ c, match c with
                          | CallNeedsSizingInfoUpdate v => Some v
                          | CallNeedsLayout _ => None
                          end) calls).

Definition requestedLayout (calls : list Call) : gset View :=
  list_to_set (omap (λ c, match c with
                          | CallNeedsLayout v => Some v
                          | CallNeedsSizingInfoUpdate _ => None
                          end) calls).

(** A view tree gone wrong: 7 and 8 are each other's parent. *)
Definition loopTree : gmap View View :=
  {[ 7%positive := 8%positive; 8%positive := 7%positive ]}.

(** View 7 of that tree asks for new sizing information. *)
Definition loopPending : World unit :=
  viewNeedsSizingInfoUpdate 7%positive (newWorld (mkUi loopTree tt)).

(** ** [Thread]

    [include/bdn/Thread.h] declares the class and defines [getId] and
    [exec]; the constructors, the destructor, [detach], [join], [stop],
    [signalStop] and the static [run] are defined in a file that is not
    part of the sources at hand.  The class is taken as it is with
    [BDN_HAVE_THREADS]; without threads [getId] is the constant [0] and
    [exec] is private. *)

(** [Thread::Id].  A default-constructed id, which names no thread, is [0];
    the n-th thread started has id [n]. *)
Definition Id : Set := nat.
Definition defaultId : Id := 0.

(** [enum Thread::ExceptionForwarding]. *)
Inductive ExceptionForwarding : Set := ExceptionThrow | ExceptionIgnore.

(** The members of a [Thread] object that its operations read. *)
Record Thread : Set := mkThread { _threadId : Id; _detached : bool }.

(** [Thread::getId]: [return _threadId;]. *)
Definition getId (t : Thread) : Id := _threadId t.

Section Threads.
(** What a runnable may throw, and what a function given to [exec]
    returns. *)
Context {Exn R : Type}.

(** The shared state behind a [std::packaged_task] and its
    [std::future]: the stored value or exception once the task has run,
    and whether a future still refers to it. *)
Record SharedState : Type := mkSharedState {
  stored : option (Exn + R);
  hasFuture : bool
}.

(** [IThreadRunnable::run]: it is told whether stop was signalled, works
    on the shared states, and returns or throws. *)
Definition Runnable : Type := bool → list SharedState → list SharedState * option Exn.

(** A started thread: [ThreadData] with its runnable and the exception
    that escaped it, whether the thread has ended and whether stop was
    signalled. *)
Record Worker : Type := mkWorker {
  pRunnable : Runnable;
  threadException : option Exn;
  ended : bool;
  stopSignalled : bool
}.

Record System : Type := mkSystem {
  workers : list Worker;
  sharedStates : list SharedState
}.

(** What a call does to its caller. *)
Inductive Failure : Type := ThreadDetachedError | Rethrown (e : Exn).
Inductive Completion : Type := Returns | Throws (f : Failure) | Blocks.

(** The thread an id names, if any. *)
Definition workerOf (sys : System) (id : Id) : option Worker :=
  match id with
  | 0 => None
  | S i => workers sys !! i
  end.

(** Modelled from the spec: the default constructor [Thread()], whose
    body is missing.  "Constructs a dummy Thread object that is not
    actually connected to a real thread"; its [_threadId] is a
    default-constructed [Id] and [_detached] is [false], as the member
    declarations have it. *)
Definition Thread_dummy : Thread := mkThread defaultId false.

(** Modelled from the spec: the constructor [Thread(IThreadRunnable* pRunnable)],
    whose body is missing.  "Construction with a runnable starts the OS
    thread immediately; no separate start call exists." *)
Definition Thread_start (runnable : Runnable) (sys : System) : Thread * System :=
  (mkThread (S (length (workers sys))) false,
   mkSystem (workers sys ++ [mkWorker runnable None false false]) (sharedStates sys)).

(** Modelled from the spec: the static [Thread::run], whose body is
    missing: the new thread runs the runnable to its end.  "Any error
    escaping the runnable's [run()] is caught on the worker thread,
    stored".  The step is taken whenever the scheduler lets the thread
    finish. *)
Definition run (i : nat) (sys : System) : System :=
  match workers sys !! i with
  | Some wk =>
      if ended wk then sys
      else
        let result := pRunnable wk (stopSignalled wk) (sharedStates sys) in
        mkSystem
          (<[i := mkWorker (pRunnable wk) result.2 true (stopSignalled wk)]> (workers sys))
          result.1
  | None => sys
  end.

(** Modelled from the spec: [Thread::detach], whose body is missing.
    "Irrevocably disowns the thread; all subsequent join/stop calls fail
    with a detached error; idempotent." *)
Definition detach (t : Thread) : Thread := mkThread (_threadId t) true.

(** Modelled from the spec: [Thread::join], whose body is missing.
    "Blocks until the thread ends without signaling stop"; a stored
    exception is rethrown if [ExceptionThrow] is requested, "otherwise
    discarded", and "it is not cleared by retrieval".  A dummy object
    "behaves like an object of a thread that has already finished". *)
Definition join (exceptionForwarding : ExceptionForwarding) (t : Thread) (sys : System)
    : Completion :=
  if _detached t then Throws ThreadDetachedError
  else
    match workerOf sys (_threadId t) with
    | None => Returns
    | Some wk =>
        if ended wk then
          match threadException wk, exceptionForwarding with
          | Some e, ExceptionThrow => Throws (Rethrown e)
          | _, _ => Returns
          end
        else Blocks
    end.

(** Modelled from the spec: [Thread::signalStop], whose body is missing.
    "Sets a cooperative cancellation flag; does not forcibly terminate";
    after [detach] it throws like [stop]. *)
Definition signalStop (t : Thread) (sys : System) : Completion * System :=
  if _detached t then (Throws ThreadDetachedError, sys)
  else
    match _threadId t with
    | 0 => (Returns, sys)
    | S i =>
        (Returns,
         mkSystem
           (alter (λ wk, mkWorker (pRunnable wk) (threadException wk) (ended wk) true)
              i (workers sys))
           (sharedStates sys))
    end.

(** Modelled from the spec: [Thread::stop], whose body is missing.
    "Calls [signalStop()] then blocks until the thread ends (equivalent to
    [join] after signaling)." *)
Definition stop (exceptionForwarding : ExceptionForwarding) (t : Thread) (sys : System)
    : Completion * System :=
  match signalStop t sys with
  | (Returns, sys') => (join exceptionForwarding t sys', sys')
  | failed => failed
  end.

(** Modelled from the spec: the destructor [~Thread], whose body is
    missing.  "If not detached, behaves like [stop(ExceptionIgnore)]." *)
Definition Thread_destroy (t : Thread) (sys : System) : Completion * System :=
  if _detached t then (Returns, sys) else stop ExceptionIgnore t sys.

(** [std::packaged_task<R()>(boundFunc)]: a new shared state, not ready. *)
Definition packaged_task_new (sys : System) : nat * System :=
  (length (sharedStates sys),
   mkSystem (workers sys) (sharedStates sys ++ [mkSharedState None false])).

(** [pTask->get_future()]. *)
Definition get_future (pTask : nat) (sys : System) : nat * System :=
  (pTask,
   mkSystem (workers sys)
     (alter (λ st, mkSharedState (stored st) true) pTask (sharedStates sys))).

(** [ExecThreadRunnable::run] calls the task, which runs the bound
    function and stores what it returns or throws in the shared state;
    nothing escapes the task. *)
Definition ExecThreadRunnable (pTask : nat) (boundFunc : unit → Exn + R) : Runnable :=
  λ _ shared,
    (alter (λ st, mkSharedState (Some (boundFunc tt)) (hasFuture st)) pTask shared, None).

(** [Thread::exec], with [BDN_HAVE_THREADS]: the task, its future, the
    thread, [detach], and the end of [execThread]'s scope at [return]. *)
Definition exec (boundFunc : unit → Exn + R) (sys : System)
    : Completion * nat * System :=
  let task := packaged_task_new sys in
  let future := get_future task.1 task.2 in
  let started := Thread_start (ExecThreadRunnable task.1 boundFunc) future.2 in
  let execThread := detach started.1 in
  let scopeEnd := Thread_destroy execThread started.2 in
  (scopeEnd.1, future.1, scopeEnd.2).

(** [std::future::get]: the stored result once the task has run; [None]
    while the caller would wait. *)
Definition future_get (resultFuture : nat) (sys : System) : option (Exn + R) :=
  sharedStates sys !! resultFuture ≫= stored.

(** [std::future::~future] for a future of a packaged task: it lets go
    of the shared state and returns. *)
Definition future_destroy (resultFuture : nat) (sys : System) : Completion * System :=
  (Returns,
   mkSystem (workers sys)
     (alter (λ st, mkSharedState (stored st) false) resultFuture (sharedStates sys))).

(** What the owner of a [Thread] object and the scheduler may do next. *)
Inductive ThreadOp : Type :=
  | OpJoin (exceptionForwarding : ExceptionForwarding)
  | OpStop (exceptionForwarding : ExceptionForwarding)
  | OpSignalStop
  | OpDetach
  | OpSchedule (i : nat).

Definition threadOp (st : Thread * System) (op : ThreadOp) : Thread * System :=
  match op with
  | OpJoin _ => st
  | OpStop exceptionForwarding => (st.1, (stop exceptionForwarding st.1 st.2).2)
  | OpSignalStop => (st.1, (signalStop st.1 st.2).2)
  | OpDetach => (detach st.1, st.2)
  | OpSchedule i => (st.1, run i st.2)
  end.
End Threads.

Arguments SharedState : clear implicits.
Arguments Runnable : clear implicits.
Arguments Worker : clear implicits.
Arguments System : clear implicits.
Arguments Failure : clear implicits.
Arguments Completion : clear implicits.
Arguments ThreadOp : clear implicits.

(** A runnable that throws 7. *)
Definition stubbornRunnable : Runnable nat nat := λ _ shared, (shared, Some 7).

(** A system in which one thread is running and one has ended with an
    exception. *)
Definition busySystem : System nat nat :=
  mkSystem [mkWorker stubbornRunnable None false false;
            mkWorker stubbornRunnable (Some 7) true false] [].

(** * Properties of the layout coordinator *)

(** ** Sorting *)

Section std_sort_facts.
Context {A : Type} (comp : A → A → bool).

Lemma sorted_insert_perm x l : sorted_insert comp x l ≡ₚ x :: l.
Proof.
  induction l as [|y l IH]; simpl; [done|].
  destruct (comp x y); [done|].
  rewrite IH. apply Permutation_swap.
Qed.

Lemma insertion_sort_perm l : insertion_sort comp l ≡ₚ l.
Proof.
  induction l as [|x l IH]; simpl; [done|].
  rewrite sorted_insert_perm. by f_equiv.
Qed.

Lemma elem_of_insertion_sort x l : x ∈ insertion_sort comp l ↔ x ∈ l.
Proof. by rewrite insertion_sort_perm. Qed.

Context (comp_trans : Transitive (comp_le comp)).
Context (comp_total : ∀ a b, comp a b = false → comp_le comp b a).

Lemma sorted_insert_sorted x l :
  StronglySorted (comp_le comp) l →
  StronglySorted (comp_le comp) (sorted_insert comp x l).
Proof.
  induction 1 as [|y l Hs IH Hy]; simpl.
  - repeat constructor.
  - destruct (comp x y) eqn:Hxy.
    + constructor; [by constructor|].
      constructor; [by left|].
      eapply Forall_impl; [exact Hy|].
      intros z Hz. etrans; [|exact Hz]. by left.
    + constructor; [done|].
      rewrite sorted_insert_perm. constructor; [|done].
      by apply comp_total.
Qed.

Lemma insertion_sort_sorted l : StronglySorted (comp_le comp) (insertion_sort comp l).
Proof.
  induction l; simpl; [constructor|]. by apply sorted_insert_sorted.
Qed.

(** Whatever algorithm [std::sort] runs, an antisymmetric comparison
    leaves it one possible result. *)
Lemma insertion_sort_unique `{!AntiSymm (=) (comp_le comp)} l k :
  k ≡ₚ l → StronglySorted (comp_le comp) k → k = insertion_sort comp l.
Proof.
  intros Hp Hk. eapply StronglySorted_unique; [done|done|apply insertion_sort_sorted|].
  by rewrite insertion_sort_perm.
Qed.
End std_sort_facts.

Section std_sort_defined.
Context {A : Type} (comp : A → A → bool).

Lemma std_sort_Some l k :
  std_sort comp l = Some k ↔ k = insertion_sort comp l ∧ strict_on comp l = true.
Proof.
  unfold std_sort. destruct (strict_on comp l); naive_solver.
Qed.

Lemma strict_on_spec l :
  strict_on comp l = true ↔
  ∀ i j x y, i < j → l !! i = Some x → l !! j = Some y →
             ¬ (comp x y = true ∧ comp y x = true).
Proof.
  induction l as [|x l IH]; simpl.
  - split; [|done]. intros _ i j x y _ Hi. by rewrite lookup_nil in Hi.
  - rewrite andb_true_iff, forallb_forall, IH. split.
    + intros [Hx Hl] i j a b Hij Hi Hj.
      destruct i as [|i], j as [|j]; simpl in *; try lia.
      * injection Hi as <-. apply list_elem_of_lookup_2, list_elem_of_In in Hj.
        specialize (Hx _ Hj). apply negb_true_iff, andb_false_iff in Hx.
        intros [? ?]. destruct Hx; congruence.
      * eapply Hl; [|done|done]. lia.
    + intros H. split.
      * intros y [j Hj]%list_elem_of_In%list_elem_of_lookup.
        apply negb_true_iff, not_true_iff_false. rewrite andb_true_iff.
        apply (H 0 (S j) x y); [lia|done|done].
      * intros i j a b Hij Hi Hj. apply (H (S i) (S j) a b); [lia|done|done].
Qed.

(** With an antisymmetric comparison the call is defined for a list on
    which no item stands twice. *)
Lemma strict_on_NoDup `{!AntiSymm (=) (comp_le comp)} l :
  NoDup l → strict_on comp l = true.
Proof.
  intros Hnd. apply strict_on_spec. intros i j x y Hij Hi Hj [Hxy Hyx].
  assert (x = y) as -> by (apply (anti_symm (comp_le comp)); by left).
  pose proof (NoDup_lookup _ _ _ _ Hnd Hi Hj). lia.
Qed.

(** With a comparison that never holds both ways every call is defined. *)
Lemma strict_on_asymmetric l :
  (∀ a b, comp a b = true → comp b a = false) → strict_on comp l = true.
Proof.
  intros Hasym. apply strict_on_spec. intros i j x y _ _ _ [Hxy Hyx].
  apply Hasym in Hxy. congruence.
Qed.
End std_sort_defined.

(** ** The order of [ToDo] items *)

Lemma ToDo_lt_spec a o :
  ToDo_lt a o = true ↔
  level a < level o ∨ (level a = level o ∧ (pView a < pView o)%positive).
Proof.
  unfold ToDo_lt.
  rewrite orb_true_iff, andb_true_iff, Nat.ltb_lt, Nat.eqb_eq, Pos.ltb_lt.
  done.
Qed.

Lemma ToDo_lt_false a o :
  ToDo_lt a o = false ↔
  level o < level a ∨ (level a = level o ∧ (pView o ≤ pView a)%positive).
Proof.
  rewrite <-not_true_iff_false, ToDo_lt_spec. lia.
Qed.

Lemma ToDo_eq a o : level a = level o → pView a = pView o → a = o.
Proof. destruct a, o; simpl; congruence. Qed.

Lemma ToDo_le_spec a o :
  comp_le ToDo_lt a o ↔
  level a < level o ∨ (level a = level o ∧ (pView a ≤ pView o)%positive).
Proof.
  unfold comp_le. rewrite ToDo_lt_spec. split.
  - intros [?| ->]; lia.
  - intros [?|[? Hle]]; [lia|].
    destruct (decide (pView a = pView o)); [right; by apply ToDo_eq|left; lia].
Qed.

Lemma ToDo_inverted_le_spec a o :
  comp_le ToDo_inverted a o ↔
  level o < level a ∨ (level a = level o ∧ (pView o ≤ pView a)%positive).
Proof.
  unfold comp_le, ToDo_inverted. rewrite negb_true_iff, ToDo_lt_false. split.
  - intros [?| ->]; lia.
  - tauto.
Qed.

Global Instance ToDo_le_trans : Transitive (comp_le ToDo_lt).
Proof. intros a b c. rewrite !ToDo_le_spec. lia. Qed.

Global Instance ToDo_le_antisymm : AntiSymm (=) (comp_le ToDo_lt).
Proof.
  intros a b. rewrite !ToDo_le_spec. intros ??. apply ToDo_eq; lia.
Qed.

Global Instance ToDo_inverted_le_trans : Transitive (comp_le ToDo_inverted).
Proof. intros a b c. rewrite !ToDo_inverted_le_spec. lia. Qed.

Global Instance ToDo_inverted_le_antisymm : AntiSymm (=) (comp_le ToDo_inverted).
Proof.
  intros a b. rewrite !ToDo_inverted_le_spec. intros ??. apply ToDo_eq; lia.
Qed.

Lemma ToDo_lt_total a b : ToDo_lt a b = false → comp_le ToDo_lt b a.
Proof. rewrite ToDo_lt_false, ToDo_le_spec. lia. Qed.

Lemma ToDo_inverted_total a b : ToDo_inverted a b = false → comp_le ToDo_inverted b a.
Proof.
  unfold ToDo_inverted. rewrite negb_false_iff, ToDo_lt_spec, ToDo_inverted_le_spec. lia.
Qed.

(** ** Levels in the view tree *)

Lemma countParents_mono n n' hier o l :
  countParents n hier o = Some l → n ≤ n' → countParents n' hier o = Some l.
Proof.
  revert n' o l. induction n as [|n IH]; intros n' [p|] l; simpl; try done.
  - destruct n'; simpl; done.
  - intros H Hle. destruct n' as [|n']; [lia|]. simpl.
    destruct (countParents n hier (getParentView hier p)) as [l'|] eqn:E; [|done].
    rewrite (IH n' _ l' E); [done|lia].
  - by destruct n'.
Qed.

Lemma countParents_ancestor hier hops d a n l :
  ancestorAt hier hops d = Some a →
  countParents n hier (getParentView hier d) = Some l →
  hops ≤ l ∧ countParents n hier (getParentView hier a) = Some (l - hops).
Proof.
  revert d n l. induction hops as [|k IH]; intros d n l; simpl.
  - intros [= ->] H. split; [lia|]. by rewrite Nat.sub_0_r.
  - destruct (getParentView hier d) as [p|] eqn:Hp; simpl; [|done].
    intros Ha Hc. destruct n as [|n]; [done|]. simpl in Hc.
    destruct (countParents n hier (getParentView hier p)) as [l'|] eqn:E; [|done].
    simpl in Hc. injection Hc as <-.
    destruct (IH _ _ _ Ha E) as [Hle Hc']. split; [lia|].
    rewrite Nat.sub_succ. eapply countParents_mono; [exact Hc'|lia].
Qed.

(** A view lies strictly deeper than each of its ancestors. *)
Lemma ToDo_new_ancestor hier hops d a td :
  ancestorAt hier (S hops) d = Some a →
  ToDo_new hier d = Some td →
  ∃ ta, ToDo_new hier a = Some ta ∧ level td = level ta + S hops.
Proof.
  unfold ToDo_new. intros Ha Hd.
  destruct (countParents (size hier) hier (getParentView hier d)) as [l|] eqn:E; [|done].
  injection Hd as <-.
  destruct (countParents_ancestor _ _ _ _ _ _ Ha E) as [Hle ->].
  eexists; split; [done|]. simpl. lia.
Qed.

Lemma ancestorAt_root hier n root :
  getParentView hier root = None → ancestorAt hier (S n) root = None.
Proof. simpl. by intros ->. Qed.

Lemma ancestorAt_add hier a b v :
  ancestorAt hier (a + b) v = ancestorAt hier a v ≫= ancestorAt hier b.
Proof.
  revert v. induction a as [|a IH]; intros v; simpl; [done|].
  destruct (getParentView hier v) as [p|]; simpl; [apply IH|done].
Qed.

Lemma rooted_unique hier k k' v root root' :
  ancestorAt hier k v = Some root → getParentView hier root = None →
  ancestorAt hier k' v = Some root' → getParentView hier root' = None →
  k = k'.
Proof.
  intros Hk Hr Hk' Hr'.
  destruct (Nat.lt_trichotomy k k') as [Hlt|[?|Hlt]]; [|done|]; exfalso.
  - replace k' with (k + S (k' - k - 1)) in Hk' by lia.
    rewrite ancestorAt_add, Hk in Hk'. simpl in Hk'. by rewrite Hr in Hk'.
  - replace k with (k' + S (k - k' - 1)) in Hk by lia.
    rewrite ancestorAt_add, Hk' in Hk. simpl in Hk. by rewrite Hr' in Hk.
Qed.

Lemma parentChain_lookup hier k v root i x :
  ancestorAt hier k v = Some root →
  parentChain hier k v !! i = Some x →
  i < k ∧ ancestorAt hier (k - i) x = Some root.
Proof.
  revert v i. induction k as [|k IH]; intros v i Hk; simpl; [done|].
  destruct i as [|i]; simpl.
  - intros [= <-]. split; [lia|done].
  - simpl in Hk. destruct (getParentView hier v) as [p|]; simpl in *; [|done].
    intros Hx. destruct (IH _ _ Hk Hx). split; [lia|done].
Qed.

Lemma parentChain_length hier k v root :
  ancestorAt hier k v = Some root → length (parentChain hier k v) = k.
Proof.
  revert v. induction k as [|k IH]; intros v; simpl; [done|].
  destruct (getParentView hier v) as [p|]; simpl; [|done].
  intros H. f_equal. by apply IH.
Qed.

Lemma rooted_within_size hier k v root :
  ancestorAt hier k v = Some root → getParentView hier root = None →
  k ≤ size hier.
Proof.
  intros Hk Hroot.
  rewrite <-(parentChain_length _ _ _ _ Hk), <-size_dom.
  assert (NoDup (parentChain hier k v)) as Hnd.
  { apply NoDup_alt. intros i j x Hi Hj.
    destruct (parentChain_lookup _ _ _ _ _ _ Hk Hi) as [Hik Hi'].
    destruct (parentChain_lookup _ _ _ _ _ _ Hk Hj) as [Hjk Hj'].
    pose proof (rooted_unique _ _ _ _ _ _ Hi' Hroot Hj' Hroot). lia. }
  rewrite <-(size_list_to_set (C:=gset View)) by done.
  apply subseteq_size. intros x Hx%elem_of_list_to_set.
  apply list_elem_of_lookup in Hx as [i Hi].
  destruct (parentChain_lookup _ _ _ _ _ _ Hk Hi) as [Hik Hx].
  apply elem_of_dom. destruct (k - i) as [|n] eqn:E; [lia|].
  simpl in Hx. unfold getParentView in *. destruct (hier !! x); [done|done].
Qed.

Lemma countParents_rooted hier k n v root :
  ancestorAt hier k v = Some root → getParentView hier root = None → k ≤ n →
  countParents n hier (getParentView hier v) = Some k.
Proof.
  revert n v. induction k as [|k IH]; intros n v; simpl.
  - intros [= ->] -> _. by destruct n.
  - destruct (getParentView hier v) as [p|] eqn:Hp; simpl; [|done].
    intros Hk Hroot Hn. destruct n as [|n]; [lia|]. simpl.
    rewrite (IH n p) by (done || lia). done.
Qed.

(** The fuel of [ToDo_new] is enough for every view whose parent chain
    reaches a view without a parent: the views of such a chain are
    different keys of the map. *)
Lemma ToDo_new_rooted hier k v root :
  ancestorAt hier k v = Some root → getParentView hier root = None →
  ToDo_new hier v = Some (mkToDo v k).
Proof.
  intros Hk Hroot. unfold ToDo_new.
  rewrite (countParents_rooted _ _ _ _ _ Hk Hroot); [done|].
  by eapply rooted_within_size.
Qed.

Lemma ToDo_new_pView hier v t : ToDo_new hier v = Some t → pView t = v.
Proof.
  unfold ToDo_new. destruct (countParents _ _ _); [|done]. by intros [= <-].
Qed.

(** ** One pass of a loop *)

Section loop_facts.
Context {U : Type}.
Context (comp : ToDo → ToDo → bool).
Context (callback : View → Ui U → Ui U * list Call) (event : View → Event).

Implicit Types (w : World U) (toDoList : list ToDo).

Lemma addNewRequests_empty hier toDoList :
  addNewRequests comp ∅ hier toDoList = Some toDoList.
Proof. unfold addNewRequests. by rewrite decide_True. Qed.

Lemma addNewRequests_Some s hier toDoList toDoList1 :
  addNewRequests comp s hier toDoList = Some toDoList1 →
  ∃ added, mapM (ToDo_new hier) (elements s) = Some added ∧
           toDoList1 ≡ₚ toDoList ++ added ∧
           (s = ∅ → toDoList1 = toDoList) ∧
           (s ≠ ∅ → toDoList1 = insertion_sort comp (toDoList ++ added)).
Proof.
  unfold addNewRequests. destruct (decide (s = ∅)) as [->|Hne].
  - intros [= <-]. exists []. rewrite elements_empty, app_nil_r. done.
  - destruct (mapM _ _) as [added|]; simpl; [|done].
    intros [-> _]%std_sort_Some. exists added. split_and!; [done| |done|done].
    apply insertion_sort_perm.
Qed.

(** The loop leaves at [break] only with no request and no item left. *)
Lemma addNewRequests_nil s hier toDoList :
  addNewRequests comp s hier toDoList = Some [] → s = ∅ ∧ toDoList = [].
Proof.
  intros H. destruct (addNewRequests_Some _ _ _ _ H) as (added & Hm & Hp & _ & _).
  symmetry in Hp. apply Permutation_nil_r in Hp.
  apply app_eq_nil in Hp as [-> ->].
  apply mapM_Some_1, Forall2_length in Hm. simpl in Hm.
  split; [|done]. apply leibniz_equiv, elements_empty_iff.
  by apply nil_length_inv.
Qed.

Lemma addNewRequests_old s hier toDoList toDoList1 t :
  addNewRequests comp s hier toDoList = Some toDoList1 →
  t ∈ toDoList → t ∈ toDoList1.
Proof.
  intros H Ht. destruct (addNewRequests_Some _ _ _ _ H) as (added & _ & Hp & _).
  rewrite Hp. set_solver.
Qed.

Lemma addNewRequests_new s hier toDoList toDoList1 v :
  addNewRequests comp s hier toDoList = Some toDoList1 →
  v ∈ s → ∃ t, ToDo_new hier v = Some t ∧ t ∈ toDoList1.
Proof.
  intros H Hv. destruct (addNewRequests_Some _ _ _ _ H) as (added & Hm & Hp & _).
  apply mapM_Some_1 in Hm. apply elem_of_elements in Hv.
  apply list_elem_of_lookup in Hv as [i Hi].
  destruct (Forall2_lookup_l _ _ _ _ _ Hm Hi) as (t & Ht & Hnew).
  exists t. split; [done|]. rewrite Hp.
  apply elem_of_app. right. by eapply list_elem_of_lookup_2.
Qed.

Lemma clearSizingInfoSet_empty w :
  _sizingInfoSet (coord w) = ∅ → clearSizingInfoSet w = w.
Proof. destruct w as [[s l f] q u]; simpl. by intros ->. Qed.

Lemma mapM_ToDo_new_pView hier (l : list View) batch :
  mapM (ToDo_new hier) l = Some batch → pView <$> batch = l.
Proof.
  intros H%mapM_Some_1. induction H as [|x t l k Hx _ IH]; [done|].
  rewrite fmap_cons, IH. f_equal. by eapply ToDo_new_pView.
Qed.

(** The first sort of a loop is defined: a set holds no view twice. *)
Lemma addNewRequests_first `{!AntiSymm (=) (comp_le comp)} s hier batch :
  s ≠ ∅ → mapM (ToDo_new hier) (elements s) = Some batch →
  addNewRequests comp s hier [] = Some (insertion_sort comp batch).
Proof.
  intros Hne Hbatch. unfold addNewRequests. rewrite decide_False by done.
  rewrite Hbatch. simpl. unfold std_sort. rewrite strict_on_NoDup; [done|apply _|].
  apply (NoDup_fmap_1 pView). rewrite (mapM_ToDo_new_pView _ _ _ Hbatch).
  apply NoDup_elements.
Qed.

Lemma updateLoop_inv fuel toDoList w r :
  updateLoop comp callback event fuel toDoList w = Some r →
  ∃ fuel' toDoList1,
    fuel = S fuel' ∧
    addNewRequests comp (_sizingInfoSet (coord w)) (hierarchy (ui w)) toDoList
      = Some toDoList1 ∧
    match toDoList1 with
    | [] => r = (clearSizingInfoSet w, [])
    | toDo :: rest =>
        ∃ r', updateLoop comp callback event fuel' rest
                (invoke callback (pView toDo) (clearSizingInfoSet w)) = Some r' ∧
              r = (r'.1, event (pView toDo) :: r'.2)
    end.
Proof.
  destruct fuel as [|fuel']; [done|]. simpl.
  destruct (addNewRequests _ _ _ _) as [[|toDo rest]|] eqn:E; simpl; [| |done].
  - intros [= <-]. by exists fuel', [].
  - destruct (updateLoop _ _ _ _ _ _) as [r'|] eqn:E'; simpl; [|done].
    intros [= <-]. exists fuel', (toDo :: rest). eauto.
Qed.

(** Whatever is pending when a pass starts, in the set or in the list,
    has had its callback invoked when the loop ends, and the loop ends
    with the set empty. *)
Lemma updateLoop_covers fuel toDoList w r :
  updateLoop comp callback event fuel toDoList w = Some r →
  (∀ t, t ∈ toDoList → event (pView t) ∈ r.2) ∧
  (∀ v, v ∈ _sizingInfoSet (coord w) → event v ∈ r.2) ∧
  _sizingInfoSet (coord r.1) = ∅.
Proof.
  revert toDoList w r. induction fuel as [|fuel IH]; intros toDoList w r H.
  { done. }
  apply updateLoop_inv in H as (fuel' & toDoList1 & [= <-] & Hadd & Hr).
  destruct toDoList1 as [|toDo rest].
  - subst r. apply addNewRequests_nil in Hadd as [Hs ->].
    rewrite Hs. split_and!; [set_solver|set_solver|done].
  - destruct Hr as (r' & Hloop & ->). simpl.
    destruct (IH _ _ _ Hloop) as (Hrest & _ & Hempty).
    assert (∀ t, t ∈ toDo :: rest → event (pView t) ∈ event (pView toDo) :: r'.2) as Hall.
    { intros t [->|Ht]%elem_of_cons; [left|right; auto]. }
    split_and!; [|
      |done].
    + intros t Ht. eapply Hall, addNewRequests_old; eauto.
    + intros v Hv.
      destruct (addNewRequests_new _ _ _ _ _ Hadd Hv) as (t & Hnew & Ht).
      rewrite <-(ToDo_new_pView _ _ _ Hnew). by apply Hall.
Qed.

Context (comp_trans : Transitive (comp_le comp)).
Context (comp_antisymm : AntiSymm (=) (comp_le comp)).
Context (comp_total : ∀ a b, comp a b = false → comp_le comp b a).

Lemma addNewRequests_sorted s hier toDoList toDoList1 :
  StronglySorted (comp_le comp) toDoList →
  addNewRequests comp s hier toDoList = Some toDoList1 →
  StronglySorted (comp_le comp) toDoList1.
Proof.
  intros Hs H. destruct (addNewRequests_Some _ _ _ _ H) as (added & _ & _ & He & Hne).
  destruct (decide (s = ∅)) as [Hs'|Hs'].
  - by rewrite (He Hs').
  - rewrite (Hne Hs'). by apply insertion_sort_sorted.
Qed.

(** The list is sorted at every pop, so of two different items that wait
    in it together, the one that [comp] puts first is popped first. *)
Lemma updateLoop_order fuel toDoList w r toDoList1 :
  StronglySorted (comp_le comp) toDoList →
  updateLoop comp callback event fuel toDoList w = Some r →
  addNewRequests comp (_sizingInfoSet (coord w)) (hierarchy (ui w)) toDoList
    = Some toDoList1 →
  ∀ a b, a ∈ toDoList1 → b ∈ toDoList1 → comp_le comp a b → a ≠ b →
         invokedBefore (event (pView a)) (event (pView b)) r.2.
Proof.
  revert toDoList w r toDoList1.
  induction fuel as [|fuel IH]; intros toDoList w r toDoList1 Hs H Hadd; [done|].
  pose proof (addNewRequests_sorted _ _ _ _ Hs Hadd) as Hs1.
  apply updateLoop_inv in H as (fuel' & toDoList1' & [= <-] & Hadd' & Hr).
  rewrite Hadd in Hadd'. injection Hadd' as <-.
  destruct toDoList1 as [|toDo rest]; [set_solver|].
  destruct Hr as (r' & Hloop & ->). simpl.
  apply StronglySorted_inv in Hs1 as [Hrest Hfirst].
  destruct (updateLoop_covers _ _ _ _ Hloop) as (Hcov & _ & _).
  pose proof Hloop as Hloop'.
  apply updateLoop_inv in Hloop' as (fuel'' & next & _ & Hnext & _).
  intros a b Ha Hb Hab Hne.
  apply elem_of_cons in Ha as [->|Ha].
  - apply elem_of_cons in Hb as [->|Hb]; [done|].
    destruct (list_elem_of_split _ _ (Hcov _ Hb)) as (l2 & l3 & ->).
    by exists [], l2, l3.
  - apply elem_of_cons in Hb as [->|Hb].
    + rewrite Forall_forall in Hfirst. destruct Hne.
      apply (anti_symm (comp_le comp)); [done|]. by apply Hfirst.
    + destruct (IH _ _ _ _ Hrest Hloop Hnext a b) as (l1 & l2 & l3 & ->); try done.
      * eapply addNewRequests_old; eauto.
      * eapply addNewRequests_old; eauto.
      * by exists (event (pView toDo) :: l1), l2, l3.
Qed.
End loop_facts.

(** ** Calls into the coordinator *)

Section call_facts.
Context {U : Type}.
Implicit Types (w : World U).

Global Instance onlySchedules_refl : Reflexive (@onlySchedules U).
Proof. intros w. by repeat split. Qed.

Global Instance onlySchedules_trans : Transitive (@onlySchedules U).
Proof.
  intros w1 w2 w3 (?&?&?&?) (?&?&?&?).
  split_and!; [auto|by etrans|by etrans|auto].
Qed.

Lemma needUpdate_onlySchedules w : onlySchedules w (needUpdate w).
Proof.
  unfold needUpdate, onlySchedules, scheduledOnce.
  destruct (_updateScheduled (coord w)) eqn:E; simpl; rewrite ?E.
  - done.
  - split_and!; [done|by apply prefix_app_r|done|]. by intros ->.
Qed.

Lemma doCall_onlySchedules w c : onlySchedules w (doCall w c).
Proof.
  destruct c as [v|v]; simpl;
    (etrans; [|apply needUpdate_onlySchedules]);
    unfold onlySchedules, scheduledOnce; simpl; split_and!; try done.
  set_solver.
Qed.

Lemma doCall_sizingInfoSet w c :
  _sizingInfoSet (coord w) ⊆ _sizingInfoSet (coord (doCall w c)) ∧
  ∀ v, c = CallNeedsSizingInfoUpdate v → v ∈ _sizingInfoSet (coord (doCall w c)).
Proof.
  destruct c as [v|v]; simpl; unfold viewNeedsSizingInfoUpdate, viewNeedsLayout, needUpdate;
    simpl; destruct (_updateScheduled (coord w)); simpl;
    (split; [set_solver|intros ? [= <-] || intros ? [=]; set_solver]).
Qed.

Lemma calls_onlySchedules calls w : onlySchedules w (foldl doCall w calls).
Proof.
  revert w. induction calls as [|c calls IH]; intros w; simpl; [done|].
  etrans; [apply (doCall_onlySchedules w c)|apply IH].
Qed.

Lemma calls_sizingInfoSet calls w :
  _sizingInfoSet (coord w) ⊆ _sizingInfoSet (coord (foldl doCall w calls)) ∧
  ∀ v, CallNeedsSizingInfoUpdate v ∈ calls →
       v ∈ _sizingInfoSet (coord (foldl doCall w calls)).
Proof.
  revert w. induction calls as [|c calls IH]; intros w; simpl.
  - split; [done|]. intros v Hv. by apply elem_of_nil in Hv.
  - destruct (IH (doCall w c)) as [Hsub Hin].
    destruct (doCall_sizingInfoSet w c) as [Hsub' Hin'].
    split; [by etrans|].
    intros v Hv. apply elem_of_cons in Hv as [Hv|Hv]; [|by apply Hin].
    apply Hsub, Hin'. done.
Qed.

Lemma add_twice (v : View) (s : gset View) : {[v]} ∪ ({[v]} ∪ s) = {[v]} ∪ s.
Proof. by rewrite (assoc_L (∪)), (idemp_L (∪)). Qed.

Lemma add_swap (v1 v2 : View) (s : gset View) :
  {[v2]} ∪ ({[v1]} ∪ s) = {[v1]} ∪ ({[v2]} ∪ s).
Proof. by rewrite !(assoc_L (∪)), (comm_L (∪) {[v2]}). Qed.

(** Asking again for a view that is already asked for changes nothing. *)
Lemma doCall_idempotent w c : doCall (doCall w c) c = doCall w c.
Proof.
  destruct c as [v|v]; simpl; unfold viewNeedsSizingInfoUpdate, viewNeedsLayout, needUpdate;
    simpl; destruct (_updateScheduled (coord w)); simpl;
    unfold with_coord; simpl; by rewrite add_twice.
Qed.

(** The order of two calls does not show in the coordinator. *)
Lemma doCall_comm w c1 c2 : doCall (doCall w c1) c2 = doCall (doCall w c2) c1.
Proof.
  destruct c1 as [v1|v1], c2 as [v2|v2]; simpl;
    unfold viewNeedsSizingInfoUpdate, viewNeedsLayout, needUpdate;
    simpl; destruct (_updateScheduled (coord w)); simpl;
    unfold with_coord; simpl; try done; by rewrite add_swap.
Qed.

Lemma clearSizingInfoSet_onlySchedules w : onlySchedules w (clearSizingInfoSet w).
Proof. by repeat split. Qed.

Lemma invoke_onlySchedules callback v w : onlySchedules w (invoke callback v w).
Proof.
  unfold invoke. etrans; [|apply calls_onlySchedules]. by repeat split.
Qed.

Lemma updateLoop_onlySchedules comp callback event fuel toDoList w r :
  updateLoop comp callback event fuel toDoList w = Some r → onlySchedules w r.1.
Proof.
  revert toDoList w r. induction fuel as [|fuel IH]; intros toDoList w r H; [done|].
  apply updateLoop_inv in H as (fuel' & toDoList1 & [= <-] & _ & Hr).
  destruct toDoList1 as [|toDo rest].
  - subst r. apply clearSizingInfoSet_onlySchedules.
  - destruct Hr as (r' & Hloop & ->). simpl.
    etrans; [apply clearSizingInfoSet_onlySchedules|].
    etrans; [apply invoke_onlySchedules|]. eauto.
Qed.

Lemma mainThreadUpdateNow_inv cbS cbL fuel w r :
  mainThreadUpdateNow cbS cbL fuel w = Some r →
  ∃ a b, sizingLoop cbS fuel [] w = Some a ∧
         layoutLoop cbL fuel [] a.1 = Some b ∧
         r = (b.1, a.2 ++ b.2).
Proof.
  unfold mainThreadUpdateNow.
  destruct (sizingLoop _ _ _ _) as [a|]; simpl; [|done].
  destruct (layoutLoop _ _ _ _) as [b|] eqn:Hb; simpl; [|done].
  intros [= <-]. by exists a, b.
Qed.

Lemma mainThreadUpdateNow_onlySchedules cbS cbL fuel w r :
  mainThreadUpdateNow cbS cbL fuel w = Some r → onlySchedules w r.1.
Proof.
  intros (a & b & Ha & Hb & ->)%mainThreadUpdateNow_inv. simpl.
  etrans; eapply updateLoop_onlySchedules; eauto.
Qed.
End call_facts.

(** ** The passes of a loop, one by one *)

Section pass_facts.
Context {U : Type}.
Context (comp : ToDo → ToDo → bool).
Context (callback : View → Ui U → Ui U * list Call) (event : View → Event).

Implicit Types (w : World U) (toDoList : list ToDo).

Lemma workingList_0 toDoList w :
  workingList comp callback 0 toDoList w
  = addNewRequests comp (_sizingInfoSet (coord w)) (hierarchy (ui w)) toDoList.
Proof. done. Qed.

Lemma passState_S n toDoList w toDo rest :
  addNewRequests comp (_sizingInfoSet (coord w)) (hierarchy (ui w)) toDoList
    = Some (toDo :: rest) →
  passState comp callback (S n) toDoList w
  = passState comp callback n rest (invoke callback (pView toDo) (clearSizingInfoSet w)).
Proof. intros H. simpl. unfold newlyAddedSet. simpl. by rewrite H. Qed.

Lemma passState_S_nil n toDoList w :
  addNewRequests comp (_sizingInfoSet (coord w)) (hierarchy (ui w)) toDoList = Some [] →
  passState comp callback (S n) toDoList w = None.
Proof. intros H. simpl. unfold newlyAddedSet. simpl. by rewrite H. Qed.

Lemma passState_S_inv n toDoList w st :
  passState comp callback (S n) toDoList w = Some st →
  ∃ toDo rest,
    addNewRequests comp (_sizingInfoSet (coord w)) (hierarchy (ui w)) toDoList
      = Some (toDo :: rest) ∧
    passState comp callback n rest (invoke callback (pView toDo) (clearSizingInfoSet w))
      = Some st.
Proof.
  simpl. unfold newlyAddedSet. simpl.
  destruct (addNewRequests _ _ _ _) as [[|toDo rest]|]; simpl; [done| |done].
  intros H. by exists toDo, rest.
Qed.

Lemma poppedAt_0 toDoList w toDoList1 :
  addNewRequests comp (_sizingInfoSet (coord w)) (hierarchy (ui w)) toDoList
    = Some toDoList1 →
  poppedAt comp callback 0 toDoList w = head toDoList1.
Proof. intros H. unfold poppedAt. rewrite workingList_0, H. done. Qed.

Lemma poppedAt_S n toDoList w toDo rest :
  addNewRequests comp (_sizingInfoSet (coord w)) (hierarchy (ui w)) toDoList
    = Some (toDo :: rest) →
  poppedAt comp callback (S n) toDoList w
  = poppedAt comp callback n rest (invoke callback (pView toDo) (clearSizingInfoSet w)).
Proof. intros H. unfold poppedAt, workingList. by rewrite (passState_S _ _ _ _ _ H). Qed.

Lemma poppedAt_S_inv n toDoList w x :
  poppedAt comp callback (S n) toDoList w = Some x →
  ∃ toDo rest,
    addNewRequests comp (_sizingInfoSet (coord w)) (hierarchy (ui w)) toDoList
      = Some (toDo :: rest) ∧
    poppedAt comp callback n rest (invoke callback (pView toDo) (clearSizingInfoSet w))
      = Some x.
Proof.
  unfold poppedAt, workingList.
  destruct (passState comp callback (S n) toDoList w) as [st|] eqn:E; [|done].
  apply passState_S_inv in E as (toDo & rest & Hadd & E).
  intros H. exists toDo, rest. split; [done|]. by rewrite E.
Qed.

(** A pass that pops an item had its sort defined. *)
Lemma poppedAt_defined n toDoList w x :
  poppedAt comp callback n toDoList w = Some x →
  is_Some (addNewRequests comp (_sizingInfoSet (coord w)) (hierarchy (ui w)) toDoList).
Proof.
  destruct n as [|n].
  - unfold poppedAt. rewrite workingList_0.
    destruct (addNewRequests _ _ _ _); [by eexists|done].
  - intros (toDo & rest & -> & _)%poppedAt_S_inv. by eexists.
Qed.

Lemma passState_add n k toDoList w :
  passState comp callback (n + k) toDoList w
  = passState comp callback n toDoList w ≫= λ st, passState comp callback k st.1 st.2.
Proof.
  revert toDoList w. induction n as [|n IH]; intros toDoList w; [done|].
  rewrite Nat.add_succ_l.
  destruct (addNewRequests comp (_sizingInfoSet (coord w)) (hierarchy (ui w)) toDoList)
    as [[|toDo rest]|] eqn:E.
  - by rewrite !passState_S_nil.
  - rewrite !(passState_S _ _ _ _ _ E). apply IH.
  - simpl. unfold newlyAddedSet. simpl. by rewrite E.
Qed.

Lemma workingList_add n k toDoList w :
  workingList comp callback (n + k) toDoList w
  = passState comp callback n toDoList w ≫= λ st, workingList comp callback k st.1 st.2.
Proof.
  unfold workingList. rewrite passState_add.
  by destruct (passState comp callback n toDoList w).
Qed.

Lemma poppedAt_add n k toDoList w :
  poppedAt comp callback (n + k) toDoList w
  = passState comp callback n toDoList w ≫= λ st, poppedAt comp callback k st.1 st.2.
Proof.
  unfold poppedAt. rewrite workingList_add.
  by destruct (passState comp callback n toDoList w).
Qed.

(** The trace of a loop is the views of the items its passes pop. *)
Lemma updateLoop_trace fuel toDoList w r k :
  updateLoop comp callback event fuel toDoList w = Some r →
  r.2 !! k = (event ∘ pView) <$> poppedAt comp callback k toDoList w.
Proof.
  revert toDoList w r k. induction fuel as [|fuel IH]; intros toDoList w r k H; [done|].
  apply updateLoop_inv in H as (fuel' & toDoList1 & [= <-] & Hadd & Hr).
  destruct toDoList1 as [|toDo rest].
  - subst r. destruct k as [|k].
    + by rewrite (poppedAt_0 _ _ _ Hadd).
    + unfold poppedAt, workingList. by rewrite (passState_S_nil _ _ _ Hadd).
  - destruct Hr as (r' & Hloop & ->). destruct k as [|k].
    + by rewrite (poppedAt_0 _ _ _ Hadd).
    + rewrite (poppedAt_S _ _ _ _ _ Hadd). simpl. by apply IH.
Qed.

(** A loop that returns is, from each of its passes on, a loop that
    returns, in the same world and with the rest of the trace. *)
Lemma updateLoop_pass fuel toDoList w r n st :
  updateLoop comp callback event fuel toDoList w = Some r →
  passState comp callback n toDoList w = Some st →
  ∃ fuel' r', updateLoop comp callback event fuel' st.1 st.2 = Some r' ∧
              r'.1 = r.1 ∧ r'.2 = drop n r.2 ∧ n ≤ length r.2.
Proof.
  revert fuel toDoList w r. induction n as [|n IH]; intros fuel toDoList w r H Hst.
  - injection Hst as <-. exists fuel, r. simpl. rewrite drop_0. split_and!; [done..|lia].
  - apply passState_S_inv in Hst as (toDo & rest & Hadd & Hst).
    apply updateLoop_inv in H as (fuel' & toDoList1 & -> & Hadd' & Hr).
    rewrite Hadd in Hadd'. injection Hadd' as <-.
    destruct Hr as (r' & Hloop & ->).
    destruct (IH _ _ _ _ Hloop Hst) as (fuel'' & r'' & Hrun & Hw & Htr & Hlen).
    exists fuel'', r''. simpl. split_and!; [done..|lia].
Qed.

(** And it leaves at [break] in the pass after its last pop, with the
    set and the list empty. *)
Lemma updateLoop_final fuel toDoList w r :
  updateLoop comp callback event fuel toDoList w = Some r →
  passState comp callback (length r.2) toDoList w = Some ([], r.1) ∧
  _sizingInfoSet (coord r.1) = ∅.
Proof.
  revert toDoList w r. induction fuel as [|fuel IH]; intros toDoList w r H; [done|].
  apply updateLoop_inv in H as (fuel' & toDoList1 & [= <-] & Hadd & Hr).
  destruct toDoList1 as [|toDo rest].
  - subst r. apply addNewRequests_nil in Hadd as [Hs ->]. simpl.
    by rewrite (clearSizingInfoSet_empty w Hs).
  - destruct Hr as (r' & Hloop & ->). cbn [fst snd length].
    rewrite (passState_S _ _ _ _ _ Hadd). by apply IH.
Qed.

(** Every item of the working list of a pass is popped by that pass or
    a later one. *)
Lemma updateLoop_pops fuel toDoList w r toDoList1 x :
  updateLoop comp callback event fuel toDoList w = Some r →
  addNewRequests comp (_sizingInfoSet (coord w)) (hierarchy (ui w)) toDoList
    = Some toDoList1 →
  x ∈ toDoList1 →
  ∃ i, i < length r.2 ∧ poppedAt comp callback i toDoList w = Some x.
Proof.
  revert toDoList w r toDoList1.
  induction fuel as [|fuel IH]; intros toDoList w r toDoList1 H Hadd Hx; [done|].
  apply updateLoop_inv in H as (fuel' & toDoList1' & [= <-] & Hadd' & Hr).
  rewrite Hadd in Hadd'. injection Hadd' as <-.
  destruct toDoList1 as [|toDo rest]; [by apply elem_of_nil in Hx|].
  destruct Hr as (r' & Hloop & ->). simpl.
  apply elem_of_cons in Hx as [->|Hx].
  - exists 0. split; [lia|]. by rewrite (poppedAt_0 _ _ _ Hadd).
  - pose proof Hloop as (fuel'' & next & _ & Hnext & _)%updateLoop_inv.
    destruct (IH _ _ _ _ Hloop Hnext) as (i & Hi & Hpop).
    { eapply addNewRequests_old; eauto. }
    exists (S i). split; [lia|]. by rewrite (poppedAt_S _ _ _ _ _ Hadd).
Qed.

(** A request that a callback makes in some pass of a loop that returns
    is served by a later pass of that loop. *)
Lemma updateLoop_absorbs fuel toDoList w r n st toDo rest v :
  updateLoop comp callback event fuel toDoList w = Some r →
  passState comp callback n toDoList w = Some st →
  addNewRequests comp (_sizingInfoSet (coord st.2)) (hierarchy (ui st.2)) st.1
    = Some (toDo :: rest) →
  CallNeedsSizingInfoUpdate v ∈ (callback (pView toDo) (ui st.2)).2 →
  r.2 !! n = Some (event (pView toDo)) ∧
  ∃ m, n < m ∧ r.2 !! m = Some (event v).
Proof.
  intros H Hst Hadd Hcall.
  destruct (updateLoop_pass _ _ _ _ _ _ H Hst) as (fuel' & r' & Hrun & _ & Htr & _).
  apply updateLoop_inv in Hrun as (fuel'' & toDoList1 & _ & Hadd' & Hr).
  rewrite Hadd in Hadd'. injection Hadd' as <-.
  destruct Hr as (r'' & Hloop & ->). simpl in Htr.
  destruct (updateLoop_covers _ _ _ _ _ _ _ Hloop) as (_ & Hcov & _).
  assert (event v ∈ r''.2) as [m Hm]%list_elem_of_lookup.
  { apply Hcov. unfold invoke. by apply calls_sizingInfoSet. }
  assert (∀ k, r.2 !! (n + k) = (event (pView toDo) :: r''.2) !! k) as Hk.
  { intros k. by rewrite <-lookup_drop, <-Htr. }
  split.
  - rewrite <-(Nat.add_0_r n) at 1. by rewrite Hk.
  - exists (n + S m). split; [lia|]. by rewrite Hk.
Qed.

(** Where the sort of a pass is undefined the loop does not return, and
    no later pass pops a thing. *)
Lemma sort_undefined_no_return n toDoList w st :
  passState comp callback n toDoList w = Some st →
  workingList comp callback n toDoList w = None →
  (∀ fuel, updateLoop comp callback event fuel toDoList w = None) ∧
  (∀ k, n ≤ k → poppedAt comp callback k toDoList w = None).
Proof.
  intros Hst HL. unfold workingList in HL. rewrite Hst in HL. simpl in HL. split.
  - intros fuel.
    destruct (updateLoop comp callback event fuel toDoList w) as [r|] eqn:H; [|done].
    destruct (updateLoop_pass _ _ _ _ _ _ H Hst) as (fuel' & r' & Hrun & _).
    apply updateLoop_inv in Hrun as (? & ? & _ & Hadd & _).
    unfold newlyAddedSet in HL. by rewrite HL in Hadd.
  - intros k Hk. replace k with (n + (k - n)) by lia.
    rewrite poppedAt_add, Hst. simpl.
    destruct (poppedAt comp callback (k - n) st.1 st.2) as [x|] eqn:E; [|done].
    destruct (poppedAt_defined _ _ _ _ E) as [? Hadd].
    unfold newlyAddedSet in HL. by rewrite HL in Hadd.
Qed.

Context (comp_trans : Transitive (comp_le comp)).
Context (comp_antisymm : AntiSymm (=) (comp_le comp)).
Context (comp_total : ∀ a b, comp a b = false → comp_le comp b a).

Lemma passState_sorted n toDoList w st :
  StronglySorted (comp_le comp) toDoList →
  passState comp callback n toDoList w = Some st →
  StronglySorted (comp_le comp) st.1.
Proof.
  revert toDoList w. induction n as [|n IH]; intros toDoList w Hs Hst.
  - by injection Hst as <-.
  - apply passState_S_inv in Hst as (toDo & rest & Hadd & Hst).
    eapply IH; [|exact Hst].
    apply (addNewRequests_sorted comp comp_trans comp_total) in Hadd; [|done].
    by apply StronglySorted_inv in Hadd as [? _].
Qed.

(** The head of a sorted list is not an item that [comp] puts after
    another one of the list. *)
Lemma sorted_head_first toDo rest a b :
  StronglySorted (comp_le comp) (toDo :: rest) →
  a ∈ toDo :: rest → comp_le comp a b → a ≠ b → toDo ≠ b.
Proof.
  intros [_ Hfirst]%StronglySorted_inv Ha Hab Hne ->.
  apply elem_of_cons in Ha as [->|Ha]; [done|].
  rewrite Forall_forall in Hfirst.
  apply Hne, (anti_symm (comp_le comp)); [done|by apply Hfirst].
Qed.

(** Of two items that wait in the list together, the one that [comp]
    puts second is popped only after the other has been popped, whether
    the loop ever returns or not. *)
Lemma passes_pop_in_order k toDoList w toDoList1 a b :
  StronglySorted (comp_le comp) toDoList →
  addNewRequests comp (_sizingInfoSet (coord w)) (hierarchy (ui w)) toDoList
    = Some toDoList1 →
  a ∈ toDoList1 → b ∈ toDoList1 → comp_le comp a b → a ≠ b →
  poppedAt comp callback k toDoList w = Some b →
  ∃ i, i < k ∧ poppedAt comp callback i toDoList w = Some a.
Proof.
  revert toDoList w toDoList1.
  induction k as [|k IH]; intros toDoList w toDoList1 Hs Hadd Ha Hb Hab Hne Hpop.
  - rewrite (poppedAt_0 _ _ _ Hadd) in Hpop.
    destruct toDoList1 as [|toDo rest]; [done|]. injection Hpop as ->.
    apply (addNewRequests_sorted comp comp_trans comp_total) in Hadd; [|done].
    by destruct (sorted_head_first _ _ _ _ Hadd Ha Hab Hne).
  - pose proof (addNewRequests_sorted comp comp_trans comp_total _ _ _ _ Hs Hadd) as Hs1.
    apply poppedAt_S_inv in Hpop as (toDo & rest & Hadd' & Hpop).
    rewrite Hadd in Hadd'. injection Hadd' as ->.
    pose proof (sorted_head_first _ _ _ _ Hs1 Ha Hab Hne) as Hhead.
    apply elem_of_cons in Ha as [->|Ha].
    { exists 0. split; [lia|]. by rewrite (poppedAt_0 _ _ _ Hadd). }
    apply elem_of_cons in Hb as [->|Hb]; [done|].
    destruct (poppedAt_defined _ _ _ _ Hpop) as [next Hnext].
    apply StronglySorted_inv in Hs1 as [Hrest _].
    destruct (IH _ _ _ Hrest Hnext) as (i & Hi & Hpa); [| |done|done|done|].
    { eapply addNewRequests_old; eauto. }
    { eapply addNewRequests_old; eauto. }
    exists (S i). split; [lia|]. by rewrite (poppedAt_S _ _ _ _ _ Hadd).
Qed.

(** In a loop that returns both are popped, the first of them before
    any pop of the second. *)
Lemma updateLoop_pops_before fuel toDoList w r toDoList1 a b :
  StronglySorted (comp_le comp) toDoList →
  updateLoop comp callback event fuel toDoList w = Some r →
  addNewRequests comp (_sizingInfoSet (coord w)) (hierarchy (ui w)) toDoList
    = Some toDoList1 →
  a ∈ toDoList1 → b ∈ toDoList1 → comp_le comp a b → a ≠ b →
  ∃ i, poppedAt comp callback i toDoList w = Some a ∧
       ∀ k, k ≤ i → poppedAt comp callback k toDoList w ≠ Some b.
Proof.
  revert toDoList w r toDoList1.
  induction fuel as [|fuel IH]; intros toDoList w r toDoList1 Hs H Hadd Ha Hb Hab Hne;
    [done|].
  pose proof (addNewRequests_sorted comp comp_trans comp_total _ _ _ _ Hs Hadd) as Hs1.
  apply updateLoop_inv in H as (fuel' & toDoList1' & [= <-] & Hadd' & Hr).
  rewrite Hadd in Hadd'. injection Hadd' as <-.
  destruct toDoList1 as [|toDo rest]; [by apply elem_of_nil in Ha|].
  destruct Hr as (r' & Hloop & ->).
  pose proof (sorted_head_first _ _ _ _ Hs1 Ha Hab Hne) as Hhead.
  apply elem_of_cons in Ha as [->|Ha].
  { exists 0. split; [by rewrite (poppedAt_0 _ _ _ Hadd)|].
    intros k Hk. replace k with 0 by lia. rewrite (poppedAt_0 _ _ _ Hadd). simpl.
    by intros [= ?]. }
  apply elem_of_cons in Hb as [->|Hb]; [done|].
  pose proof Hloop as (fuel'' & next & _ & Hnext & _)%updateLoop_inv.
  apply StronglySorted_inv in Hs1 as [Hrest _].
  destruct (IH _ _ _ _ Hrest Hloop Hnext) as (i & Hpa & Hnb); [| |done|done|].
  { eapply addNewRequests_old; eauto. }
  { eapply addNewRequests_old; eauto. }
  exists (S i). split; [by rewrite (poppedAt_S _ _ _ _ _ Hadd)|].
  intros [|k] Hk.
  - rewrite (poppedAt_0 _ _ _ Hadd). simpl. by intros [= ?].
  - rewrite (poppedAt_S _ _ _ _ _ Hadd). apply Hnb. lia.
Qed.

(** The same from any pass of a loop on. *)
Lemma pass_pops_in_order n k toDoList w toDoList1 a b :
  StronglySorted (comp_le comp) toDoList →
  workingList comp callback n toDoList w = Some toDoList1 →
  a ∈ toDoList1 → b ∈ toDoList1 → comp_le comp a b → a ≠ b →
  n ≤ k → poppedAt comp callback k toDoList w = Some b →
  ∃ i, n ≤ i ∧ i < k ∧ poppedAt comp callback i toDoList w = Some a.
Proof.
  intros Hs HL Ha Hb Hab Hne Hnk Hpop.
  unfold workingList in HL.
  destruct (passState comp callback n toDoList w) as [st|] eqn:Hst; [|done].
  simpl in HL. replace k with (n + (k - n)) in Hpop by lia.
  rewrite poppedAt_add, Hst in Hpop. simpl in Hpop.
  destruct (passes_pop_in_order _ _ _ _ _ _ (passState_sorted _ _ _ _ Hs Hst)
              HL Ha Hb Hab Hne Hpop) as (i & Hi & Hpa).
  exists (n + i). split_and!; [lia|lia|]. by rewrite poppedAt_add, Hst.
Qed.

Lemma pass_pops_both fuel n toDoList w r toDoList1 a b :
  StronglySorted (comp_le comp) toDoList →
  updateLoop comp callback event fuel toDoList w = Some r →
  workingList comp callback n toDoList w = Some toDoList1 →
  a ∈ toDoList1 → b ∈ toDoList1 → comp_le comp a b → a ≠ b →
  ∃ i j, n ≤ i ∧ i < j ∧
         poppedAt comp callback i toDoList w = Some a ∧
         poppedAt comp callback j toDoList w = Some b ∧
         (∀ k, n ≤ k → k ≤ i → poppedAt comp callback k toDoList w ≠ Some b) ∧
         r.2 !! i = Some (event (pView a)) ∧ r.2 !! j = Some (event (pView b)).
Proof.
  intros Hs H HL Ha Hb Hab Hne.
  unfold workingList in HL.
  destruct (passState comp callback n toDoList w) as [st|] eqn:Hst; [|done].
  simpl in HL.
  destruct (updateLoop_pass _ _ _ _ _ _ H Hst) as (fuel' & r' & Hrun & _ & _ & _).
  pose proof (passState_sorted _ _ _ _ Hs Hst) as Hs'.
  destruct (updateLoop_pops_before _ _ _ _ _ _ _ Hs' Hrun HL Ha Hb Hab Hne)
    as (i & Hpa & Hnb).
  destruct (updateLoop_pops _ _ _ _ _ _ Hrun HL Hb) as (j & _ & Hpb).
  assert (i < j) as Hij.
  { destruct (decide (i < j)) as [|Hge]; [done|]. destruct (Hnb j); [lia|done]. }
  assert (∀ m, poppedAt comp callback (n + m) toDoList w
               = poppedAt comp callback m st.1 st.2) as Hshift.
  { intros m. by rewrite poppedAt_add, Hst. }
  exists (n + i), (n + j). rewrite !(updateLoop_trace _ _ _ _ _ H), !Hshift, Hpa, Hpb.
  split_and!; [lia|lia|done|done| |done|done].
  intros k Hnk Hki. replace k with (n + (k - n)) by lia. rewrite Hshift.
  apply Hnb. lia.
Qed.
End pass_facts.

(** ** Callbacks that ask for nothing *)

Section quiet_facts.
Context {U : Type}.
Context (comp : ToDo → ToDo → bool).
Context (callback : View → Ui U → Ui U * list Call) (event : View → Event).
Context (quiet : ∀ v u, (callback v u).2 = []).

Implicit Types (w : World U).

Lemma invoke_quiet v w : invoke callback v w = with_ui (callback v (ui w)).1 w.
Proof. unfold invoke. by rewrite quiet. Qed.

(** With nothing new coming in, the loop pops the list to its end. *)
Lemma updateLoop_quiet fuel toDoList w :
  _sizingInfoSet (coord w) = ∅ → length toDoList < fuel →
  ∃ r, updateLoop comp callback event fuel toDoList w = Some r ∧
       r.2 = (event ∘ pView) <$> toDoList ∧
       coord r.1 = coord w ∧ mainQueue r.1 = mainQueue w.
Proof.
  revert toDoList w. induction fuel as [|fuel IH]; intros toDoList w Hs Hlen; [lia|].
  simpl. unfold newlyAddedSet. rewrite Hs, addNewRequests_empty. simpl.
  rewrite (clearSizingInfoSet_empty w Hs).
  destruct toDoList as [|toDo rest]; simpl in *.
  - by eexists.
  - rewrite invoke_quiet.
    destruct (IH rest (with_ui (callback (pView toDo) (ui w)).1 w)) as (r & -> & Htr & Hc & Hq);
      [done|lia|].
    eexists. split; [done|]. simpl. by rewrite Htr.
Qed.

Lemma updateLoop_quiet_first fuel toDoList toDoList1 w :
  addNewRequests comp (_sizingInfoSet (coord w)) (hierarchy (ui w)) toDoList
    = Some toDoList1 →
  length toDoList1 < fuel →
  ∃ r, updateLoop comp callback event fuel toDoList w = Some r ∧
       r.2 = (event ∘ pView) <$> toDoList1 ∧
       coord r.1 = coord (clearSizingInfoSet w) ∧ mainQueue r.1 = mainQueue w.
Proof.
  intros Hadd Hlen. destruct fuel as [|fuel]; [lia|].
  simpl. unfold newlyAddedSet. rewrite Hadd. simpl.
  destruct toDoList1 as [|toDo rest]; simpl in *.
  - by eexists.
  - rewrite invoke_quiet.
    destruct (updateLoop_quiet fuel rest
                (with_ui (callback (pView toDo) (ui (clearSizingInfoSet w))).1
                   (clearSizingInfoSet w))) as (r & -> & Htr & Hc & Hq);
      [done|lia|].
    eexists. split; [done|]. simpl. by rewrite Htr.
Qed.
End quiet_facts.

(** ** Callbacks that cannot ask for ever *)

Section termination.
Context {U : Type}.
Context (comp : ToDo → ToDo → bool).
Context (callback : View → Ui U → Ui U * list Call) (event : View → Event).
Context (comp_strict : ∀ a b, comp a b = true → comp b a = false).
Context (sound : Ui U → Prop) (budget : Ui U → nat).
Context (sound_levels : ∀ u v, sound u → is_Some (ToDo_new (hierarchy u) v)).
Context (sound_kept : ∀ v u, sound u → sound (callback v u).1).
Context (budget_kept : ∀ v u, sound u → budget (callback v u).1 ≤ budget u).
Context (budget_spent : ∀ v u, sound u → (callback v u).2 ≠ [] →
                               budget (callback v u).1 < budget u).

Implicit Types (w : World U).

Lemma addNewRequests_sound s u toDoList :
  sound u →
  ∃ toDoList1, addNewRequests comp s (hierarchy u) toDoList = Some toDoList1 ∧
               length toDoList1 = length toDoList + size s.
Proof.
  intros Hu. unfold addNewRequests. destruct (decide (s = ∅)) as [->|Hne].
  - exists toDoList. rewrite size_empty. split; [done|lia].
  - destruct (mapM_is_Some_2 (ToDo_new (hierarchy u)) (elements s)) as [added Hadded].
    { apply Forall_forall. intros v _. by apply sound_levels. }
    rewrite Hadded. simpl. unfold std_sort.
    rewrite strict_on_asymmetric by done. eexists. split; [done|].
    rewrite (Permutation_length (insertion_sort_perm _ _)), length_app.
    apply mapM_Some_1, Forall2_length in Hadded. unfold size, set_size. simpl. lia.
Qed.

Lemma invoke_ui v w : ui (invoke callback v w) = (callback v (ui w)).1.
Proof.
  assert (∀ calls w1, ui (foldl doCall w1 calls) = ui w1) as H.
  { induction calls as [|c calls IH]; intros w1; simpl; [done|].
    rewrite IH. destruct c as [v'|v']; simpl;
      unfold viewNeedsSizingInfoUpdate, viewNeedsLayout, needUpdate;
      simpl; destruct (_updateScheduled (coord w1)); done. }
  unfold invoke. by rewrite H.
Qed.

(** A loop whose every sort is defined, as with [ToDo::operator<], ends
    when the callbacks cannot ask for ever: every callback that asks for
    something uses up some of a budget that no callback refills. *)
Lemma updateLoop_terminates toDoList w :
  sound (ui w) →
  ∃ fuel r, updateLoop comp callback event fuel toDoList w = Some r.
Proof.
  remember (budget (ui w)) as b eqn:Hb.
  remember (length toDoList + size (_sizingInfoSet (coord w))) as m eqn:Hm.
  revert m toDoList w Hb Hm.
  induction b as [b IHb] using lt_wf_ind.
  induction m as [m IHm] using lt_wf_ind.
  intros toDoList w Hb Hm Hsound.
  destruct (addNewRequests_sound (_sizingInfoSet (coord w)) (ui w) toDoList Hsound)
    as (toDoList1 & Hadd & Hlen).
  destruct toDoList1 as [|toDo rest].
  { exists 1. eexists. simpl. unfold newlyAddedSet. by rewrite Hadd. }
  set (w2 := invoke callback (pView toDo) (clearSizingInfoSet w)).
  assert (ui w2 = (callback (pView toDo) (ui w)).1) as Hui
    by exact (invoke_ui (pView toDo) (clearSizingInfoSet w)).
  assert (sound (ui w2)) as Hsound2 by (rewrite Hui; by apply sound_kept).
  assert (∃ fuel r, updateLoop comp callback event fuel rest w2 = Some r)
    as (fuel & r & Hr).
  { destruct (decide ((callback (pView toDo) (ui w)).2 = [])) as [Hquiet|Hasks].
    - pose proof (budget_kept (pView toDo) (ui w) Hsound) as Hle.
      destruct (decide (budget (ui w2) = b)) as [Heq|Hne].
      + eapply (IHm (length rest + size (_sizingInfoSet (coord w2)))); [|done|done|done].
        assert (_sizingInfoSet (coord w2) = ∅) as ->.
        { unfold w2, invoke. simpl. by rewrite Hquiet. }
        rewrite size_empty. rewrite length_cons in Hlen. lia.
      + eapply (IHb (budget (ui w2))); [|done|done|done].
        rewrite Hui in Hne |- *. lia.
    - eapply (IHb (budget (ui w2))); [|done|done|done].
      rewrite Hui, Hb. by apply budget_spent. }
  exists (S fuel). eexists. simpl. unfold newlyAddedSet. rewrite Hadd. simpl.
  fold w2. by rewrite Hr.
Qed.
End termination.

(** ** Callbacks that leave the view tree alone *)

Section fixed_hierarchy.
Context {U : Type}.
Context (comp : ToDo → ToDo → bool).
Context (callback : View → Ui U → Ui U * list Call) (event : View → Event).
Context (hierarchy_kept : ∀ v u, hierarchy (callback v u).1 = hierarchy u).

Implicit Types (w : World U) (toDoList : list ToDo).

Lemma addNewRequests_levels s hier toDoList toDoList1 :
  (∀ t, t ∈ toDoList → ToDo_new hier (pView t) = Some t) →
  addNewRequests comp s hier toDoList = Some toDoList1 →
  ∀ t, t ∈ toDoList1 → ToDo_new hier (pView t) = Some t.
Proof.
  intros Hold H t Ht.
  destruct (addNewRequests_Some _ _ _ _ _ H) as (added & Hm & Hp & _).
  rewrite Hp in Ht. apply elem_of_app in Ht as [Ht|Ht]; [by apply Hold|].
  apply mapM_Some_1 in Hm. apply list_elem_of_lookup in Ht as [i Hi].
  destruct (Forall2_lookup_r _ _ _ _ _ Hm Hi) as (v & _ & Hnew).
  by rewrite (ToDo_new_pView _ _ _ Hnew).
Qed.

(** Every item of the list then carries the level that its view has. *)
Lemma passState_levels n toDoList w st :
  (∀ t, t ∈ toDoList → ToDo_new (hierarchy (ui w)) (pView t) = Some t) →
  passState comp callback n toDoList w = Some st →
  hierarchy (ui st.2) = hierarchy (ui w) ∧
  ∀ t, t ∈ st.1 → ToDo_new (hierarchy (ui w)) (pView t) = Some t.
Proof.
  revert toDoList w. induction n as [|n IH]; intros toDoList w Hold Hst.
  - by injection Hst as <-.
  - apply passState_S_inv in Hst as (toDo & rest & Hadd & Hst).
    pose proof (addNewRequests_levels _ _ _ _ Hold Hadd) as Hnew.
    assert (hierarchy (ui (invoke callback (pView toDo) (clearSizingInfoSet w)))
            = hierarchy (ui w)) as Hh by (by rewrite invoke_ui, hierarchy_kept).
    destruct (IH _ _ (λ t Ht, eq_ind_r (λ h, ToDo_new h (pView t) = Some t)
                                (Hnew t (list_elem_of_further _ _ _ Ht)) Hh) Hst)
      as [Hh' Hlev].
    split; [by rewrite Hh'|]. intros t Ht. rewrite <-Hh. by apply Hlev.
Qed.

Lemma poppedAt_levels n w toDo :
  poppedAt comp callback n [] w = Some toDo →
  ToDo_new (hierarchy (ui w)) (pView toDo) = Some toDo.
Proof.
  unfold poppedAt, workingList.
  destruct (passState comp callback n [] w) as [st|] eqn:Hst; [|done]. simpl.
  destruct (passState_levels _ _ _ _ (λ t Ht, False_ind _ (not_elem_of_nil t Ht)) Hst)
    as [Hh Hlev].
  destruct (addNewRequests _ _ _ _) as [[|t rest]|] eqn:Hadd; [done| |done].
  intros [= ->]. rewrite <-Hh.
  apply (addNewRequests_levels _ _ _ _ (λ t Ht, eq_ind_r
           (λ h, ToDo_new h (pView t) = Some t) (Hlev t Ht) Hh) Hadd).
  by left.
Qed.

Context (comp_trans : Transitive (comp_le comp)).
Context (comp_antisymm : AntiSymm (=) (comp_le comp)).
Context (comp_total : ∀ a b, comp a b = false → comp_le comp b a).
Context (event_inj : Inj (=) (=) event).

(** And the order of the items is an order of the callbacks: from the
    pass in which two items wait together, the view of the second has no
    callback invoked until the view of the first has had its own. *)
Lemma pass_views_in_order fuel n w r toDoList1 a b :
  updateLoop comp callback event fuel [] w = Some r →
  workingList comp callback n [] w = Some toDoList1 →
  a ∈ toDoList1 → b ∈ toDoList1 → comp_le comp a b → a ≠ b →
  ∃ i j, n ≤ i ∧ i < j ∧
         r.2 !! i = Some (event (pView a)) ∧ r.2 !! j = Some (event (pView b)) ∧
         ∀ k, n ≤ k → k ≤ i → r.2 !! k ≠ Some (event (pView b)).
Proof.
  intros H HL Ha Hb Hab Hne.
  destruct (pass_pops_both comp callback event comp_trans comp_antisymm comp_total
              fuel n [] w r toDoList1 a b) as (i & j & Hi & Hij & _ & Hpb & Hnb & Hti & Htj);
    [constructor|done..|].
  exists i, j. split_and!; [done..|].
  intros k Hnk Hki Hk. rewrite (updateLoop_trace _ _ _ _ _ _ _ k H) in Hk.
  destruct (poppedAt comp callback k [] w) as [t|] eqn:Hpop; [|done].
  simpl in Hk. injection Hk as Hview%(inj event).
  apply (Hnb k Hnk Hki). rewrite Hpop. f_equal.
  apply poppedAt_levels in Hpop. apply poppedAt_levels in Hpb.
  rewrite Hview, Hpb in Hpop. by injection Hpop.
Qed.
End fixed_hierarchy.

(** ** Counting invocations *)

Lemma invocations_none e (l : list Event) : e ∉ l → invocations e l = 0.
Proof.
  unfold invocations. induction l as [|x l IH]; [done|].
  intros [Hne Hl]%not_elem_of_cons. rewrite filter_cons, decide_False by done. auto.
Qed.

Lemma invocations_once (event : View → Event) `{!Inj (=) (=) event} (l : list View) v :
  NoDup l → v ∈ l → invocations (event v) (event <$> l) = 1.
Proof.
  unfold invocations. induction 1 as [|x l Hx Hnd IH]; intros Hv.
  - by apply elem_of_nil in Hv.
  - rewrite fmap_cons, filter_cons. apply elem_of_cons in Hv as [<-|Hv].
    + rewrite decide_True by done. simpl. f_equal.
      apply invocations_none.
      intros (y & Heq & Hy)%list_elem_of_fmap. apply (inj event) in Heq. by subst.
    + rewrite decide_False; [by apply IH|].
      intros Heq. apply (inj event) in Heq. by subst.
Qed.

Lemma invocations_perm e l k : l ≡ₚ k → invocations e l = invocations e k.
Proof. unfold invocations. by intros ->. Qed.

Global Instance EvUpdateSizingInfo_inj : Inj (=) (=) EvUpdateSizingInfo.
Proof. by intros ?? [=]. Qed.
Global Instance EvLayout_inj : Inj (=) (=) EvLayout.
Proof. by intros ?? [=]. Qed.

(** ** The drain *)

Section drain_facts.
Context {U : Type}.
Context (cbS cbL : View → Ui U → Ui U * list Call).
Implicit Types (w : World U).

Lemma updateLoop_events comp callback event fuel toDoList w (r : World U * list Event) :
  updateLoop comp callback event fuel toDoList w = Some r →
  ∀ e, e ∈ r.2 → ∃ v, e = event v.
Proof.
  revert toDoList w r. induction fuel as [|fuel IH]; intros toDoList w r H; [done|].
  apply updateLoop_inv in H as (fuel' & toDoList1 & [= <-] & _ & Hr).
  destruct toDoList1 as [|toDo rest].
  - subst r. intros e He. by apply elem_of_nil in He.
  - destruct Hr as (r' & Hloop & ->). simpl.
    intros e [->|He]%elem_of_cons; eauto.
Qed.

(** With no request for sizing information, neither loop has a thing
    to do. *)
Lemma updateLoop_idle comp callback event fuel w :
  _sizingInfoSet (coord w) = ∅ →
  updateLoop comp callback event (S fuel) [] w = Some (w, []).
Proof.
  intros Hs. simpl. unfold newlyAddedSet.
  rewrite Hs, addNewRequests_empty. simpl.
  by rewrite (clearSizingInfoSet_empty w Hs).
Qed.

Lemma drain_without_sizing fuel w :
  _sizingInfoSet (coord w) = ∅ →
  mainThreadUpdateNow cbS cbL (S fuel) w = Some (w, []).
Proof.
  intros Hs. unfold mainThreadUpdateNow, sizingLoop, layoutLoop.
  rewrite (updateLoop_idle _ _ _ _ _ Hs). cbn [mbind option_bind fst].
  by rewrite (updateLoop_idle _ _ _ _ _ Hs).
Qed.

(** When the first loop has ended the second finds [_sizingInfoSet] empty:
    a drain invokes no [mainThreadLayout] and drops no layout request. *)
Lemma drain_never_lays_out fuel w r :
  mainThreadUpdateNow cbS cbL fuel w = Some r →
  (∀ v, EvLayout v ∉ r.2) ∧ _layoutSet (coord w) ⊆ _layoutSet (coord r.1).
Proof.
  intros H. split; [|by apply mainThreadUpdateNow_onlySchedules in H as (_&_&?&_)].
  apply mainThreadUpdateNow_inv in H as (a & b & Ha & Hb & ->). simpl.
  destruct (updateLoop_covers _ _ _ _ _ _ _ Ha) as (_ & _ & Hempty).
  destruct fuel as [|fuel]; [done|].
  unfold layoutLoop in Hb. rewrite (updateLoop_idle _ _ _ _ _ Hempty) in Hb.
  injection Hb as <-. simpl. rewrite app_nil_r.
  intros v Hv. by destruct (updateLoop_events _ _ _ _ _ _ _ Ha _ Hv).
Qed.

(** A drain is its first loop: the second one, which starts from the
    empty [_sizingInfoSet] that the first has left, ends at once. *)
Lemma drain_is_sizing_loop fuel w :
  mainThreadUpdateNow cbS cbL fuel w = sizingLoop cbS fuel [] w.
Proof.
  unfold mainThreadUpdateNow.
  destruct (sizingLoop cbS fuel [] w) as [a|] eqn:Ha; simpl; [|done].
  destruct (updateLoop_covers _ _ _ _ _ _ _ Ha) as (_ & _ & Hempty).
  destruct fuel as [|fuel]; [done|].
  unfold layoutLoop. rewrite (updateLoop_idle _ _ _ _ _ Hempty). simpl.
  rewrite app_nil_r. by destruct a.
Qed.

(** The deferred callback after requests for layout alone. *)
Lemma runQueued_without_sizing fuel c u :
  _sizingInfoSet c = ∅ →
  runQueued cbS cbL (S fuel) (mkWorld c [DeferredUpdate] u)
  = Some (mkWorld (mkCoordinator (_sizingInfoSet c) (_layoutSet c) false) [] u, []).
Proof.
  intros Hs. unfold runQueued, deferredUpdate. simpl.
  by rewrite drain_without_sizing.
Qed.
End drain_facts.

(** ** The order of the two loops *)

Section order_facts.
Context {U : Type}.
Context (cbS cbL : View → Ui U → Ui U * list Call).
Implicit Types (w : World U).

Lemma updateLoop_batch_order comp callback event
    (comp_trans : Transitive (comp_le comp))
    (comp_antisymm : AntiSymm (=) (comp_le comp))
    (comp_total : ∀ a b, comp a b = false → comp_le comp b a)
    fuel w (r : World U * list Event) u v tu tv :
  u ∈ newlyAddedSet w → v ∈ newlyAddedSet w →
  ToDo_new (hierarchy (ui w)) u = Some tu →
  ToDo_new (hierarchy (ui w)) v = Some tv →
  comp_le comp tu tv → tu ≠ tv →
  updateLoop comp callback event fuel [] w = Some r →
  invokedBefore (event u) (event v) r.2.
Proof.
  intros Hu Hv Htu Htv Hle Hne Hloop.
  pose proof Hloop as (fuel' & batch & _ & Hadd & _)%updateLoop_inv.
  destruct (addNewRequests_new _ _ _ _ _ _ Hadd Hu) as (tu' & Htu' & Hin_u).
  destruct (addNewRequests_new _ _ _ _ _ _ Hadd Hv) as (tv' & Htv' & Hin_v).
  rewrite Htu in Htu'. rewrite Htv in Htv'. injection Htu' as <-. injection Htv' as <-.
  rewrite <-(ToDo_new_pView _ _ _ Htu), <-(ToDo_new_pView _ _ _ Htv).
  eapply (updateLoop_order comp callback event comp_trans comp_antisymm comp_total
            fuel [] w r batch); eauto.
  constructor.
Qed.

(** What the second loop does with the requests it copies: parents
    first, and the smaller address first on one level. *)
Lemma layout_loop_order fuel w r a d ta td :
  a ∈ newlyAddedSet w → d ∈ newlyAddedSet w →
  ToDo_new (hierarchy (ui w)) a = Some ta →
  ToDo_new (hierarchy (ui w)) d = Some td →
  level ta < level td ∨ (level ta = level td ∧ (a < d)%positive) →
  layoutLoop cbL fuel [] w = Some r →
  invokedBefore (EvLayout a) (EvLayout d) r.2.
Proof.
  intros Ha Hd Hta Htd Hlt Hloop.
  pose proof (ToDo_new_pView _ _ _ Hta) as Hpa.
  pose proof (ToDo_new_pView _ _ _ Htd) as Hpd.
  eapply (updateLoop_batch_order ToDo_lt cbL EvLayout
            ToDo_le_trans ToDo_le_antisymm ToDo_lt_total); eauto.
  - apply ToDo_le_spec. rewrite Hpa, Hpd. lia.
  - intros ->. rewrite Hpd in Hpa. lia.
Qed.

End order_facts.

(** ** The claims about the coordinator *)

(** C1.  The claim has the second loop draw from the layout set.  On the
    code a view registered with [viewNeedsLayout] on a fresh coordinator
    is still in [_layoutSet] when the deferred callback has run to its end,
    with no callback invoked at all, no update scheduled and nothing
    queued: the second loop copies and clears [_sizingInfoSet]. *)
Theorem layout_request_left_pending {U} (cbS cbL : View → Ui U → Ui U * list Call)
    (u : Ui U) (v : View) (fuel : nat) :
  ∃ w', runQueued cbS cbL (S fuel) (viewNeedsLayout v (newWorld u)) = Some (w', []) ∧
        v ∈ _layoutSet (coord w') ∧
        _updateScheduled (coord w') = false ∧ mainQueue w' = [].
Proof.
  unfold viewNeedsLayout, needUpdate, newWorld. simpl.
  rewrite runQueued_without_sizing by done.
  eexists. split; [done|]. simpl. split_and!; [set_solver|done|done].
Qed.

(** C2, as the claim has it, fails: 5 and 6 lie on one level and 6 is
    served first. *)
Lemma sizing_ties_descend :
  ToDo_new chainTree 5%positive = Some (mkToDo 5%positive 0) ∧
  ToDo_new chainTree 6%positive = Some (mkToDo 6%positive 0) ∧
  ∃ r, runQueued quietCallback quietCallback 3 twoRootsPending = Some r ∧
       r.2 = [EvUpdateSizingInfo 6%positive; EvUpdateSizingInfo 5%positive] ∧
       ¬ invokedBefore (EvUpdateSizingInfo 5%positive) (EvUpdateSizingInfo 6%positive) r.2.
Proof.
  split; [vm_compute; reflexivity|]. split; [vm_compute; reflexivity|].
  eexists. split; [vm_compute; reflexivity|]. split; [done|].
  simpl. intros (l1 & l2 & l3 & H).
  destruct l1 as [|? [|? l1]]; [| |destruct l1; done].
  - destruct l2 as [|? [|? l2]]; [done|done|destruct l2; done].
  - destruct l2; done.
Qed.

(** C2, amended.  Two items wait on the working list of the first loop
    in one pass, [a] the deeper of the two or, on one level, the one with
    the greater address.  Then [a] is popped strictly before [b].  In
    whatever pass from that one on [b] is popped, [a] has been popped in
    an earlier one, whether the loop ever returns or not.  And when the
    loop returns both have been popped, [a] at an earlier place of the
    trace than [b], with no pop of [b] from the pass in which they
    waited together up to the pop of [a].  Where the callbacks leave the
    view tree as it is, so that a view has one level, the view of [b] has
    no callback invoked at all between that pass and the callback of the
    view of [a]. *)
Theorem sizing_loop_order {U} (cbS : View → Ui U → Ui U * list Call)
    (w : World U) (n : nat) (toDoList : list ToDo) (a b : ToDo) :
  workingList ToDo_inverted cbS n [] w = Some toDoList →
  a ∈ toDoList → b ∈ toDoList →
  level b < level a ∨ (level a = level b ∧ (pView b < pView a)%positive) →
  (∀ k, n ≤ k → poppedAt ToDo_inverted cbS k [] w = Some b →
        ∃ i, n ≤ i ∧ i < k ∧ poppedAt ToDo_inverted cbS i [] w = Some a) ∧
  (∀ fuel r, sizingLoop cbS fuel [] w = Some r →
     ∃ i j, n ≤ i ∧ i < j ∧
            poppedAt ToDo_inverted cbS i [] w = Some a ∧
            poppedAt ToDo_inverted cbS j [] w = Some b ∧
            (∀ k, n ≤ k → k ≤ i → poppedAt ToDo_inverted cbS k [] w ≠ Some b) ∧
            r.2 !! i = Some (EvUpdateSizingInfo (pView a)) ∧
            r.2 !! j = Some (EvUpdateSizingInfo (pView b))) ∧
  (∀ fuel r, (∀ v u, hierarchy (cbS v u).1 = hierarchy u) →
     sizingLoop cbS fuel [] w = Some r →
     ∃ i j, n ≤ i ∧ i < j ∧
            r.2 !! i = Some (EvUpdateSizingInfo (pView a)) ∧
            r.2 !! j = Some (EvUpdateSizingInfo (pView b)) ∧
            ∀ k, n ≤ k → k ≤ i → r.2 !! k ≠ Some (EvUpdateSizingInfo (pView b))).
Proof.
  intros HL Ha Hb Hlt.
  assert (comp_le ToDo_inverted a b) as Hab by (apply ToDo_inverted_le_spec; lia).
  assert (a ≠ b) as Hne by (intros ->; lia).
  assert (StronglySorted (comp_le ToDo_inverted) []) as Hnil by constructor.
  split_and!.
  - intros k Hk Hpop.
    eapply (pass_pops_in_order ToDo_inverted cbS ToDo_inverted_le_trans
              ToDo_inverted_le_antisymm ToDo_inverted_total); eauto.
  - intros fuel r Hloop.
    eapply (pass_pops_both ToDo_inverted cbS EvUpdateSizingInfo ToDo_inverted_le_trans
              ToDo_inverted_le_antisymm ToDo_inverted_total); eauto.
  - intros fuel r Hkept Hloop.
    eapply (pass_views_in_order ToDo_inverted cbS EvUpdateSizingInfo Hkept
              ToDo_inverted_le_trans ToDo_inverted_le_antisymm ToDo_inverted_total _);
      eauto.
Qed.

Lemma sizing_loop_order_witness :
  workingList ToDo_inverted (countdownCallback 2%positive 4%positive) 1 [] resortPending
    = Some [mkToDo 4%positive 3; mkToDo 5%positive 0] ∧
  ∃ r, sizingLoop (countdownCallback 2%positive 4%positive) 4 [] resortPending = Some r ∧
       r.2 = [EvUpdateSizingInfo 2%positive; EvUpdateSizingInfo 4%positive;
              EvUpdateSizingInfo 5%positive] ∧
       ∃ i j, 1 ≤ i ∧ i < j ∧
              r.2 !! i = Some (EvUpdateSizingInfo 4%positive) ∧
              r.2 !! j = Some (EvUpdateSizingInfo 5%positive) ∧
              ∀ k, 1 ≤ k → k ≤ i → r.2 !! k ≠ Some (EvUpdateSizingInfo 5%positive).
Proof.
  assert (workingList ToDo_inverted (countdownCallback 2%positive 4%positive) 1 []
            resortPending = Some [mkToDo 4%positive 3; mkToDo 5%positive 0]) as HL
    by (vm_compute; reflexivity).
  split; [exact HL|].
  assert (∃ r, sizingLoop (countdownCallback 2%positive 4%positive) 4 [] resortPending
               = Some r ∧
               r.2 = [EvUpdateSizingInfo 2%positive; EvUpdateSizingInfo 4%positive;
                      EvUpdateSizingInfo 5%positive]) as (r & Hr & Htr)
    by (eexists; split; vm_compute; reflexivity).
  exists r. split; [exact Hr|]. split; [exact Htr|].
  destruct (sizing_loop_order (countdownCallback 2%positive 4%positive) resortPending 1
              [mkToDo 4%positive 3; mkToDo 5%positive 0]
              (mkToDo 4%positive 3) (mkToDo 5%positive 0) HL) as (_ & _ & Hboth).
  - apply elem_of_cons. by left.
  - apply elem_of_cons. right. apply elem_of_cons. by left.
  - left. simpl. lia.
  - destruct (Hboth 4 r) as (i & j & Hi & Hij & Hti & Htj & Hnone).
    + intros v u. unfold countdownCallback.
      destruct (decide (v = 2%positive)); [destruct (user u)|]; reflexivity.
    + exact Hr.
    + exists i, j. split_and!; [exact Hi|exact Hij|exact Hti|exact Htj|exact Hnone].
Defined.

(** C3.  The claim has an ancestor and a descendant that wait for layout
    laid out in that order.  On the code Root(1) and its child A(2), both
    registered with [viewNeedsLayout], are not laid out by the drain at
    all, whatever the callbacks do: the second loop finds
    [_sizingInfoSet] empty.  (The order in which that loop serves what it
    does copy is the claimed one: [layout_loop_order].) *)
Theorem layout_parent_child_not_laid_out
    (cbS cbL : View → Ui unit → Ui unit * list Call) (fuel : nat) :
  ancestorAt chainTree 1 2%positive = Some 1%positive ∧
  ∃ r, runQueued cbS cbL (S fuel) parentChildLayoutPending = Some r ∧
       r.2 = [] ∧
       1%positive ∈ _layoutSet (coord r.1) ∧ 2%positive ∈ _layoutSet (coord r.1) ∧
       ¬ invokedBefore (EvLayout 1%positive) (EvLayout 2%positive) r.2.
Proof.
  split; [vm_compute; reflexivity|].
  cbv [parentChildLayoutPending viewNeedsLayout needUpdate newWorld with_coord
       coord mainQueue ui _updateScheduled _sizingInfoSet _layoutSet app].
  rewrite runQueued_without_sizing by done.
  eexists. split; [done|]. simpl. split_and!; [done|set_solver|set_solver|].
  intros (l1 & l2 & l3 & H). by destruct l1.
Qed.

(** C6.  The claim has a view registered any number of times with
    [viewNeedsLayout] laid out once by the next drain.  On the code the
    two calls leave the coordinator as one call does, and the drain
    invokes [mainThreadLayout] for the view not once but never. *)
Theorem layout_request_twice_never_invoked {U}
    (cbS cbL : View → Ui U → Ui U * list Call) (u : Ui U) (v : View) (fuel : nat) :
  viewNeedsLayout v (viewNeedsLayout v (newWorld u)) = viewNeedsLayout v (newWorld u) ∧
  ∃ r, runQueued cbS cbL (S fuel) (viewNeedsLayout v (viewNeedsLayout v (newWorld u))) = Some r ∧
       invocations (EvLayout v) r.2 = 0.
Proof.
  split; [apply (doCall_idempotent (newWorld u) (CallNeedsLayout v))|].
  cbv [viewNeedsLayout needUpdate newWorld with_coord
       coord mainQueue ui _updateScheduled _sizingInfoSet _layoutSet app].
  rewrite runQueued_without_sizing by done.
  by eexists.
Qed.

(** The half of C6 that the code keeps: a view registered for sizing
    information, however often, is served once by the first loop when the
    callbacks ask for nothing. *)
Lemma sizing_request_once {U} (cbS : View → Ui U → Ui U * list Call)
    (quiet : ∀ v u, (cbS v u).2 = []) (w : World U) (v : View) (batch : list ToDo) :
  viewNeedsSizingInfoUpdate v (viewNeedsSizingInfoUpdate v w) = viewNeedsSizingInfoUpdate v w ∧
  (mapM (ToDo_new (hierarchy (ui w))) (elements (newlyAddedSet (viewNeedsSizingInfoUpdate v w)))
     = Some batch →
   ∃ r, sizingLoop cbS (S (length batch)) [] (viewNeedsSizingInfoUpdate v w) = Some r ∧
        invocations (EvUpdateSizingInfo v) r.2 = 1).
Proof.
  split; [apply (doCall_idempotent w (CallNeedsSizingInfoUpdate v))|].
  set (w1 := viewNeedsSizingInfoUpdate v w). intros Hbatch.
  assert (v ∈ newlyAddedSet w1) as Hv.
  { unfold w1, newlyAddedSet.
    apply (calls_sizingInfoSet [CallNeedsSizingInfoUpdate v] w). by left. }
  assert (hierarchy (ui w1) = hierarchy (ui w)) as Hh.
  { unfold w1, viewNeedsSizingInfoUpdate, needUpdate. simpl.
    by destruct (_updateScheduled (coord w)). }
  assert (addNewRequests ToDo_inverted (_sizingInfoSet (coord w1)) (hierarchy (ui w1)) []
          = Some (insertion_sort ToDo_inverted batch)) as Hadd.
  { rewrite Hh. apply addNewRequests_first; [apply _| |done].
    unfold newlyAddedSet in Hv. intros He. rewrite He in Hv. by apply elem_of_empty in Hv. }
  destruct (updateLoop_quiet_first ToDo_inverted cbS EvUpdateSizingInfo quiet
              (S (length batch)) [] _ w1 Hadd) as (r & Hr & Htr & _).
  { rewrite (Permutation_length (insertion_sort_perm _ _)). lia. }
  exists r. split; [done|]. rewrite Htr.
  rewrite (invocations_perm _ _ ((EvUpdateSizingInfo ∘ pView) <$> batch))
    by (by rewrite insertion_sort_perm).
  assert (pView <$> batch = elements (newlyAddedSet w1)) as Hviews
    by (by eapply mapM_ToDo_new_pView).
  rewrite list_fmap_compose, Hviews.
  apply invocations_once; [apply _|apply NoDup_elements|by apply elem_of_elements].
Qed.

(** C5.  The claim has every request that a sizing callback makes while
    the first loop runs served later by that loop.  On the code the
    seventeen children of a container ask for new sizing information and
    the callback of each asks for the container.  The first pass pops
    child 18, whose callback asks for view 1, and the second pops child
    17, whose callback asks again.  The third pass finds the item of
    view 1 on the list already, appends it once more and hands the list to
    [std::sort] with a comparison that holds both ways between the two:
    what the call does is undefined.  No pass pops view 1, and neither
    the loop nor the drain returns.  (What a loop that returns does with
    such requests is [updateLoop_absorbs].) *)
Theorem sizing_reentrant_request_breaks_sort :
  poppedAt ToDo_inverted askParentCallback 0 [] familyPending
    = Some (mkToDo 18%positive 1) ∧
  CallNeedsSizingInfoUpdate 1%positive
    ∈ (askParentCallback 18%positive (ui familyPending)).2 ∧
  (∃ toDoList w,
     passState ToDo_inverted askParentCallback 2 [] familyPending = Some (toDoList, w) ∧
     length toDoList = 16 ∧ mkToDo 1%positive 0 ∈ toDoList ∧
     newlyAddedSet w = {[1%positive]} ∧
     ToDo_new (hierarchy (ui w)) 1%positive = Some (mkToDo 1%positive 0) ∧
     std_sort ToDo_inverted (toDoList ++ [mkToDo 1%positive 0]) = None) ∧
  (∀ k toDo, poppedAt ToDo_inverted askParentCallback k [] familyPending = Some toDo →
             pView toDo ≠ 1%positive) ∧
  (∀ fuel, sizingLoop askParentCallback fuel [] familyPending = None) ∧
  (∀ cbL fuel, runQueued askParentCallback cbL fuel familyPending = None).
Proof.
  assert (∃ st, passState ToDo_inverted askParentCallback 2 [] familyPending = Some st ∧
                length st.1 = 16 ∧ mkToDo 1%positive 0 ∈ st.1 ∧
                newlyAddedSet st.2 = {[1%positive]} ∧
                ToDo_new (hierarchy (ui st.2)) 1%positive = Some (mkToDo 1%positive 0) ∧
                std_sort ToDo_inverted (st.1 ++ [mkToDo 1%positive 0]) = None)
    as (st & Hst & Hlen & Hin & Hset & Hnew & Hsort).
  { eexists. split; [vm_compute; reflexivity|]. simpl. split_and!.
    - vm_compute; reflexivity.
    - vm_compute. apply list_elem_of_lookup. by exists 15.
    - vm_compute; reflexivity.
    - vm_compute; reflexivity.
    - vm_compute; reflexivity. }
  assert (workingList ToDo_inverted askParentCallback 2 [] familyPending = None) as HL
    by (vm_compute; reflexivity).
  destruct (sort_undefined_no_return ToDo_inverted askParentCallback EvUpdateSizingInfo
              _ _ _ _ Hst HL) as [Hloop Hpops].
  split_and!.
  - vm_compute; reflexivity.
  - vm_compute. by left.
  - destruct st as [toDoList w]. exists toDoList, w.
    split_and!; [exact Hst|exact Hlen|exact Hin|exact Hset|exact Hnew|exact Hsort].
  - intros k toDo Hpop. destruct (decide (2 ≤ k)) as [Hk|Hk].
    { by rewrite (Hpops k Hk) in Hpop. }
    destruct k as [|[|k]]; [| |lia];
      vm_compute in Hpop; injection Hpop as <-; simpl; discriminate.
  - exact Hloop.
  - intros cbL fuel.
    assert (mainQueue familyPending = [DeferredUpdate]) as Hq by (vm_compute; reflexivity).
    unfold runQueued. rewrite Hq. unfold deferredUpdate.
    rewrite drain_is_sizing_loop.
    eapply (sort_undefined_no_return ToDo_inverted askParentCallback EvUpdateSizingInfo 2).
    + vm_compute; reflexivity.
    + vm_compute; reflexivity.
Qed.

(** ** The flag and the queue *)

Section schedule_facts.
Context {U : Type}.
Context (cbS cbL : View → Ui U → Ui U * list Call).
Implicit Types (w : World U).

Lemma scheduledOnce_new (u : Ui U) : scheduledOnce (newWorld u).
Proof. done. Qed.

(** While an update is scheduled, calls schedule nothing more. *)
Lemma calls_while_scheduled calls w :
  scheduledOnce w → _updateScheduled (coord w) = true →
  mainQueue (foldl doCall w calls) = mainQueue w.
Proof.
  intros Hw Hflag.
  destruct (calls_onlySchedules calls w) as (Hflag' & _ & _ & Hkeep).
  specialize (Hkeep Hw). specialize (Hflag' Hflag).
  unfold scheduledOnce in *. by rewrite Hkeep, Hflag', Hw, Hflag.
Qed.
End schedule_facts.

(** Every world that the functions of the coordinator produce is reached
    by steps of [coordinatorStep]. *)
Section step_facts.
Context {U : Type}.
Context (cbS cbL : View → Ui U → Ui U * list Call).
Implicit Types (w : World U).

Lemma calls_steps calls w : rtc coordinatorStep w (foldl doCall w calls).
Proof.
  revert w. induction calls as [|c calls IH]; intros w; simpl; [done|].
  eapply rtc_l; [apply (StepCall w c)|apply IH].
Qed.

Lemma invoke_steps callback v w : rtc coordinatorStep w (invoke callback v w).
Proof.
  unfold invoke. eapply rtc_l; [apply (StepApplication w (callback v (ui w)).1)|].
  apply calls_steps.
Qed.

Lemma updateLoop_steps comp callback event fuel toDoList w r :
  updateLoop comp callback event fuel toDoList w = Some r → rtc coordinatorStep w r.1.
Proof.
  revert toDoList w r. induction fuel as [|fuel IH]; intros toDoList w r H; [done|].
  apply updateLoop_inv in H as (fuel' & toDoList1 & [= <-] & _ & Hr).
  destruct toDoList1 as [|toDo rest].
  - subst r. apply rtc_once, StepCopyAndClear.
  - destruct Hr as (r' & Hloop & ->). simpl.
    eapply rtc_l; [apply StepCopyAndClear|].
    etrans; [apply invoke_steps|]. eauto.
Qed.

Lemma mainThreadUpdateNow_steps fuel w r :
  mainThreadUpdateNow cbS cbL fuel w = Some r → rtc coordinatorStep w r.1.
Proof.
  intros (a & b & Ha & Hb & ->)%mainThreadUpdateNow_inv. simpl.
  etrans; eapply updateLoop_steps; eauto.
Qed.

Lemma runQueued_steps fuel w r :
  runQueued cbS cbL fuel w = Some r → rtc coordinatorStep w r.1.
Proof.
  unfold runQueued. destruct (mainQueue w) as [|[] queue] eqn:E.
  - by intros [= <-].
  - unfold deferredUpdate. intros Hr.
    eapply rtc_l; [by apply (StepDeferredStart w queue)|].
    by apply mainThreadUpdateNow_steps in Hr.
Qed.

Lemma runOps_steps fuel ops w w' :
  runOps cbS cbL fuel w ops = Some w' → rtc coordinatorStep w w'.
Proof.
  revert w. induction ops as [|op ops IH]; intros w; simpl.
  - by intros [= <-].
  - destruct (runOp _ _ _ _ _) as [w1|] eqn:E; simpl; [|done].
    intros Hrest. etrans; [|by apply IH].
    destruct op as [v|v|[]|]; simpl in E.
    + injection E as <-. apply rtc_once, (StepCall w (CallNeedsSizingInfoUpdate v)).
    + injection E as <-. apply rtc_once, (StepCall w (CallNeedsLayout v)).
    + destruct (mainThreadUpdateNow _ _ _ _) as [r|] eqn:Er; simpl in E; [|done].
      injection E as <-. by eapply mainThreadUpdateNow_steps.
    + by injection E as <-.
    + destruct (runQueued _ _ _ _) as [r|] eqn:Er; simpl in E; [|done].
      injection E as <-. by eapply runQueued_steps.
Qed.

Lemma coordinatorStep_scheduledOnce w w' :
  coordinatorStep w w' → scheduledOnce w → scheduledOnce w'.
Proof.
  intros [w0 c|w0 queue Hq|w0|w0 u] Hw.
  - by apply doCall_onlySchedules.
  - unfold scheduledOnce in *. simpl. rewrite Hq in Hw.
    by destruct (_updateScheduled (coord w0)); simplify_eq.
  - done.
  - done.
Qed.

Lemma steps_scheduledOnce w w' :
  rtc coordinatorStep w w' → scheduledOnce w → scheduledOnce w'.
Proof. induction 1; eauto using coordinatorStep_scheduledOnce. Qed.
End step_facts.

(** C4.  In every world that a fresh coordinator reaches, by whatever
    interleaving of calls from any threads, of deferred callbacks and of
    the passes of their loops, the queue of the main thread holds one
    deferred callback when [_updateScheduled] is set and none when it is
    not; [needUpdate] queues a callback, and sets the flag, only when the
    flag is not set; and calls made while the flag is set queue nothing. *)
Theorem at_most_one_deferred_update {U} (u : Ui U) (w : World U) :
  rtc coordinatorStep (newWorld u) w →
  scheduledOnce w ∧
  length (mainQueue w) ≤ 1 ∧
  (_updateScheduled (coord w) = true →
     needUpdate w = w ∧ ∀ calls, mainQueue (foldl doCall w calls) = mainQueue w) ∧
  (_updateScheduled (coord w) = false →
     mainQueue (needUpdate w) = mainQueue w ++ [DeferredUpdate] ∧
     _updateScheduled (coord (needUpdate w)) = true).
Proof.
  intros Hreach.
  pose proof (steps_scheduledOnce _ _ Hreach (scheduledOnce_new u)) as Hw.
  split_and!; [done| | |].
  - unfold scheduledOnce in Hw. rewrite Hw.
    destruct (_updateScheduled (coord w)); simpl; lia.
  - intros Hflag. split; [unfold needUpdate; by rewrite Hflag|].
    intros calls. by apply calls_while_scheduled.
  - intros Hflag. unfold needUpdate. by rewrite Hflag.
Qed.

Lemma at_most_one_deferred_update_witness :
  ∃ w', runOps quietCallback quietCallback 3 (newWorld chainUi) sampleProgram = Some w' ∧
        rtc coordinatorStep (newWorld chainUi) w' ∧
        scheduledOnce w' ∧ length (mainQueue w') ≤ 1.
Proof.
  assert (∃ w', runOps quietCallback quietCallback 3 (newWorld chainUi) sampleProgram
                = Some w') as [w' Hrun].
  { eexists. vm_compute. reflexivity. }
  exists w'. split; [exact Hrun|].
  pose proof (runOps_steps _ _ _ _ _ _ Hrun) as Hreach.
  split; [exact Hreach|].
  destruct (at_most_one_deferred_update _ _ Hreach) as (Honce & Hlen & _).
  split; [exact Honce|exact Hlen].
Defined.

(** C9.  Off the main thread [updateNow] returns at once: the sets, the
    flag and the queue are as they were and no callback is invoked.  On
    the main thread it is the drain itself, which takes nothing from the
    queue and does not clear the flag. *)
Theorem updateNow_off_main_thread {U} (cbS cbL : View → Ui U → Ui U * list Call)
    (fuel : nat) (w : World U) :
  updateNow cbS cbL false fuel w = Some (w, []) ∧
  updateNow cbS cbL true fuel w = mainThreadUpdateNow cbS cbL fuel w ∧
  ∀ r, updateNow cbS cbL true fuel w = Some r →
       (_updateScheduled (coord w) = true → _updateScheduled (coord r.1) = true) ∧
       mainQueue w `prefix_of` mainQueue r.1.
Proof.
  split_and!; [done|done|].
  intros r Hr. simpl in Hr.
  by apply mainThreadUpdateNow_onlySchedules in Hr as (? & ? & _).
Qed.

Lemma updateNow_off_main_thread_witness :
  updateNow quietCallback quietCallback false 3 twoRootsPending = Some (twoRootsPending, []) ∧
  ∃ r, updateNow quietCallback quietCallback true 3 twoRootsPending = Some r ∧
       _updateScheduled (coord r.1) = true ∧
       mainQueue twoRootsPending `prefix_of` mainQueue r.1.
Proof.
  destruct (updateNow_off_main_thread quietCallback quietCallback 3 twoRootsPending)
    as (Hoff & _ & Hon).
  split; [exact Hoff|].
  eexists. split; [vm_compute; reflexivity|].
  edestruct Hon as [Hflag Hqueue]; [vm_compute; reflexivity|].
  split; [apply Hflag; vm_compute; reflexivity|exact Hqueue].
Defined.

(** The scenario of a leaf and an inner view: C(4) is served before A(2),
    B(3) is not touched, and nothing is laid out. *)
Example scenario_leaf_before_inner :
  snd <$> runQueued quietCallback quietCallback 3 leafAndInnerPending
  = Some [EvUpdateSizingInfo 4%positive; EvUpdateSizingInfo 2%positive].
Proof. vm_compute. reflexivity. Qed.

(** A view that asks for itself twice over is served three times by one
    drain. *)
Example scenario_self_request :
  snd <$> runQueued (countdownCallback 5%positive 5%positive) quietCallback 4
            (viewNeedsSizingInfoUpdate 5%positive (newWorld (mkUi ∅ 2)))
  = Some [EvUpdateSizingInfo 5%positive; EvUpdateSizingInfo 5%positive;
          EvUpdateSizingInfo 5%positive].
Proof. vm_compute. reflexivity. Qed.

(** * Properties of the thread handle *)

Section thread_facts.
Context {Exn R : Type}.
Implicit Types (t : Thread) (sys : System Exn R) (ops : list (ThreadOp)).

Lemma threadOp_detached (st : Thread * System Exn R) op :
  _detached st.1 = true → _detached (threadOp st op).1 = true.
Proof. by destruct op. Qed.

(** Nothing that is done to a detached object attaches it again. *)
Lemma threadOps_detached ops (st : Thread * System Exn R) :
  _detached st.1 = true → _detached (foldl threadOp st ops).1 = true.
Proof.
  revert st. induction ops as [|op ops IH]; intros st Hd; simpl; [done|].
  by apply IH, threadOp_detached.
Qed.

Lemma join_detached exceptionForwarding t sys :
  _detached t = true → join exceptionForwarding t sys = Throws ThreadDetachedError.
Proof. unfold join. by intros ->. Qed.

Lemma stop_detached exceptionForwarding t sys :
  _detached t = true → stop exceptionForwarding t sys = (Throws ThreadDetachedError, sys).
Proof. unfold stop, signalStop. by intros ->. Qed.

Lemma Thread_destroy_detached t sys :
  _detached t = true → Thread_destroy t sys = (Returns, sys).
Proof. unfold Thread_destroy. by intros ->. Qed.

(** The handle of a thread that has ended without an exception. *)
Lemma join_finished exceptionForwarding t sys wk :
  _detached t = false → workerOf sys (_threadId t) = Some wk →
  ended wk = true → threadException wk = None →
  join exceptionForwarding t sys = Returns.
Proof. unfold join. by intros -> -> -> ->. Qed.

(** A thread that is still running holds back the destructor of an
    object that was not detached, and is told to stop. *)
Lemma Thread_destroy_attached_blocks (runnable : Runnable Exn R) sys :
  let started := Thread_start runnable sys in
  ∃ sys', Thread_destroy started.1 started.2 = (Blocks, sys') ∧
          stopSignalled <$> workers sys' !! length (workers sys) = Some true.
Proof.
  simpl. unfold Thread_destroy, stop, signalStop, join, workerOf. simpl.
  rewrite list_lookup_alter_eq, list_lookup_middle by done. simpl.
  eexists. split; [done|]. simpl.
  by rewrite list_lookup_alter_eq, list_lookup_middle.
Qed.
End thread_facts.

(** C7.  Once [detach] was called, and whatever is done with the object or
    happens to the thread afterwards, [join] and [stop] throw
    [ThreadDetachedError] in either forwarding mode, [stop] signalling
    nothing; a second [detach] changes nothing; and the destructor returns
    at once and leaves the thread alone. *)
Theorem detached_thread_refuses_join_and_stop {Exn R : Type}
    (t : Thread) (sys : System Exn R) (ops : list ThreadOp)
    (exceptionForwarding : ExceptionForwarding) :
  let st := foldl threadOp (detach t, sys) ops in
  join exceptionForwarding st.1 st.2 = Throws ThreadDetachedError ∧
  stop exceptionForwarding st.1 st.2 = (Throws ThreadDetachedError, st.2) ∧
  detach (detach t) = detach t ∧
  Thread_destroy st.1 st.2 = (Returns, st.2).
Proof.
  intros st.
  assert (_detached st.1 = true) as Hd by by apply threadOps_detached.
  split_and!.
  - by apply join_detached.
  - by apply stop_detached.
  - done.
  - by apply Thread_destroy_detached.
Qed.

(** C10.  A [Thread] object constructed without a runnable: [join] and
    [stop] return at once in either forwarding mode and change nothing,
    [getId] is the default-constructed id, and the destructor returns at
    once. *)
Theorem dummy_thread_like_finished {Exn R : Type}
    (sys : System Exn R) (exceptionForwarding : ExceptionForwarding) :
  join exceptionForwarding Thread_dummy sys = Returns ∧
  stop exceptionForwarding Thread_dummy sys = (Returns, sys) ∧
  getId Thread_dummy = defaultId ∧
  Thread_destroy Thread_dummy sys = (Returns, sys).
Proof. by destruct exceptionForwarding. Qed.

(** C8.  [exec] returns without waiting and hands back a future; the new
    thread is running, no object owns it and it was not told to stop; when
    it has run, the future holds what the function returned or threw.
    Destroying the future returns at once and leaves every thread as it
    is, and the thread still runs to its end and stores the result. *)
Theorem exec_runs_detached {Exn R : Type}
    (boundFunc : unit → Exn + R) (sys : System Exn R) :
  let i := length (workers sys) in
  let result := exec boundFunc sys in
  let resultFuture := result.1.2 in
  let sys1 := result.2 in
  let dropped := future_destroy resultFuture sys1 in
  result.1.1 = Returns ∧
  (∃ wk, workers sys1 !! i = Some wk ∧ ended wk = false ∧ stopSignalled wk = false) ∧
  (∀ j, j < i → workers sys1 !! j = workers sys !! j) ∧
  future_get resultFuture sys1 = None ∧
  future_get resultFuture (run i sys1) = Some (boundFunc tt) ∧
  dropped.1 = Returns ∧
  workers dropped.2 = workers sys1 ∧
  (∃ wk, workers (run i dropped.2) !! i = Some wk ∧
         ended wk = true ∧ threadException wk = None ∧ stopSignalled wk = false) ∧
  stored <$> sharedStates (run i dropped.2) !! resultFuture = Some (Some (boundFunc tt)).
Proof.
  simpl. unfold run, future_get. simpl.
  rewrite !list_lookup_middle by done. simpl.
  rewrite !list_lookup_alter_eq, !list_lookup_middle by done. simpl.
  split_and!; try done.
  - by eexists.
  - intros j Hj. by rewrite lookup_app_l.
  - eexists. rewrite list_lookup_insert_eq; [done|]. rewrite length_app. simpl. lia.
Qed.

(** ** The thread handle at work *)

Example join_running_thread_blocks :
  join ExceptionThrow (mkThread 1 false) busySystem = Blocks.
Proof. reflexivity. Qed.

Example join_rethrows_stored_exception :
  join ExceptionThrow (mkThread 2 false) busySystem = Throws (Rethrown 7) ∧
  join ExceptionIgnore (mkThread 2 false) busySystem = Returns.
Proof. split; reflexivity. Qed.

Example stop_signals_then_waits :
  let stopped := stop ExceptionThrow (mkThread 1 false) busySystem in
  stopped.1 = Blocks ∧
  stopSignalled <$> workers stopped.2 !! 0 = Some true ∧
  join ExceptionThrow (mkThread 1 false) (run 0 stopped.2) = Throws (Rethrown 7).
Proof. repeat split; reflexivity. Qed.

(** * Further properties of the coordinator *)

Lemma countParents_reaches_root hier n v l :
  countParents n hier (getParentView hier v) = Some l →
  ∃ root, ancestorAt hier l v = Some root ∧ getParentView hier root = None.
Proof.
  revert v l. induction n as [|n IH]; intros v l; simpl.
  - destruct (getParentView hier v) as [p|] eqn:Hp; [done|].
    intros [= <-]. by exists v.
  - destruct (getParentView hier v) as [p|] eqn:Hp.
    + destruct (countParents n hier (getParentView hier p)) as [l'|] eqn:E; [|done].
      simpl. intros [= <-]. destruct (IH _ _ E) as (root & Hroot & Hnone).
      exists root. simpl. rewrite Hp. done.
    + intros [= <-]. by exists v.
Qed.

(** X1.  The level that the [ToDo] constructor gives a view is the number
    of parent links from the view to a view without a parent: the
    constructor's loop ends with [hops] exactly when [hops] links lead from
    the view to such a root. *)
Theorem level_counts_parent_hops (hier : gmap View View) (v : View) (hops : nat) :
  ToDo_new hier v = Some (mkToDo v hops) ↔
  ∃ root, ancestorAt hier hops v = Some root ∧ getParentView hier root = None.
Proof.
  split.
  - unfold ToDo_new.
    destruct (countParents _ _ _) as [l|] eqn:E; [|done].
    intros [= <-]. by eapply countParents_reaches_root.
  - intros (root & Hanc & Hroot). unfold ToDo_new.
    rewrite (countParents_rooted _ _ _ _ _ Hanc Hroot); [done|].
    by eapply rooted_within_size.
Qed.

Lemma level_counts_parent_hops_witness :
  ToDo_new chainTree 4%positive = Some (mkToDo 4%positive 3).
Proof.
  apply level_counts_parent_hops. exists 1%positive.
  split; vm_compute; reflexivity.
Defined.

(** X2.  On a view that is its own ancestor the loop of the [ToDo]
    constructor never ends, and with it no pass of the first loop that
    finds the view among the new requests: the drain hangs. *)
Theorem cyclic_parent_chain_never_ends {U} (cbS : View → Ui U → Ui U * list Call)
    (w : World U) (v : View) (hops : nat) :
  ancestorAt (hierarchy (ui w)) (S hops) v = Some v →
  (∀ fuel, countParents fuel (hierarchy (ui w)) (getParentView (hierarchy (ui w)) v) = None) ∧
  (v ∈ newlyAddedSet w → ∀ fuel toDoList, sizingLoop cbS fuel toDoList w = None).
Proof.
  intros Hcycle.
  assert (∀ fuel, countParents fuel (hierarchy (ui w))
                    (getParentView (hierarchy (ui w)) v) = None) as Hnever.
  { intros fuel.
    destruct (countParents fuel _ _) as [l|] eqn:E; [|done].
    destruct (countParents_ancestor _ _ _ _ _ _ Hcycle E) as [Hle E'].
    rewrite E in E'. injection E' as E'. lia. }
  split; [done|].
  intros Hv fuel toDoList. destruct fuel as [|fuel]; [done|].
  unfold sizingLoop. cbn [updateLoop]. unfold addNewRequests, newlyAddedSet in *.
  rewrite decide_False by (intros Hempty; rewrite Hempty in Hv; set_solver).
  destruct (mapM _ _) as [added|] eqn:Hadded; [|done].
  exfalso. apply mapM_Some_1 in Hadded.
  apply elem_of_elements, list_elem_of_lookup in Hv as [i Hi].
  destruct (Forall2_lookup_l _ _ _ _ _ Hadded Hi) as (t & _ & Ht).
  unfold ToDo_new in Ht. simpl in Ht. by rewrite Hnever in Ht.
Qed.

Lemma cyclic_parent_chain_never_ends_witness :
  countParents 100 loopTree (getParentView loopTree 7%positive) = None ∧
  sizingLoop quietCallback 100 [] loopPending = None.
Proof.
  destruct (cyclic_parent_chain_never_ends quietCallback loopPending 7%positive 1)
    as [Hwalk Hloop].
  - vm_compute. reflexivity.
  - split; [apply (Hwalk 100)|].
    apply Hloop. vm_compute. set_solver.
Defined.

(** X3.  [ToDo::operator<] is a strict total order: no item is below
    itself, of two items at most one is below the other, the relation is
    transitive, and two items of which neither is below the other are the
    same view on the same level. *)
Theorem ToDo_lt_strict_total_order (a b c : ToDo) :
  ToDo_lt a a = false ∧
  (ToDo_lt a b = true → ToDo_lt b a = false) ∧
  (ToDo_lt a b = true → ToDo_lt b c = true → ToDo_lt a c = true) ∧
  (ToDo_lt a b = false → ToDo_lt b a = false → a = b).
Proof.
  split_and!.
  - apply ToDo_lt_false. lia.
  - rewrite ToDo_lt_spec, ToDo_lt_false. lia.
  - rewrite !ToDo_lt_spec. lia.
  - rewrite !ToDo_lt_false. intros ??. apply ToDo_eq; lia.
Qed.

Lemma ToDo_lt_strict_total_order_witness :
  ToDo_lt (mkToDo 9%positive 0) (mkToDo 2%positive 1) = true ∧
  ToDo_lt (mkToDo 2%positive 1) (mkToDo 3%positive 1) = true ∧
  ToDo_lt (mkToDo 9%positive 0) (mkToDo 3%positive 1) = true ∧
  ToDo_lt (mkToDo 2%positive 1) (mkToDo 9%positive 0) = false.
Proof.
  destruct (ToDo_lt_strict_total_order (mkToDo 9%positive 0) (mkToDo 2%positive 1)
              (mkToDo 3%positive 1)) as (_ & Hasym & Htrans & _).
  assert (ToDo_lt (mkToDo 9%positive 0) (mkToDo 2%positive 1) = true) as H1 by reflexivity.
  assert (ToDo_lt (mkToDo 2%positive 1) (mkToDo 3%positive 1) = true) as H2 by reflexivity.
  split_and!; [exact H1|exact H2|exact (Htrans H1 H2)|exact (Hasym H1)].
Defined.

(** X4.  The lambda that the first loop gives to [std::sort] holds of
    every item and itself and of every two items in at least one
    direction; on two different items it is [operator<] with the sides
    exchanged. *)
Theorem sizing_comparison_is_reflexive (a b : ToDo) :
  ToDo_inverted a a = true ∧
  (ToDo_inverted a b = true ∨ ToDo_inverted b a = true) ∧
  (a ≠ b → ToDo_inverted a b = ToDo_lt b a).
Proof.
  unfold ToDo_inverted. split_and!.
  - apply negb_true_iff, ToDo_lt_false. lia.
  - rewrite !negb_true_iff, !ToDo_lt_false. lia.
  - intros Hne. destruct (ToDo_lt a b) eqn:Hab, (ToDo_lt b a) eqn:Hba; simpl; try done.
    + apply ToDo_lt_spec in Hab, Hba. lia.
    + destruct Hne. apply ToDo_lt_false in Hab, Hba. apply ToDo_eq; lia.
Qed.

Lemma sizing_comparison_is_reflexive_witness :
  ToDo_inverted (mkToDo 5%positive 0) (mkToDo 6%positive 0) = false ∧
  ToDo_inverted (mkToDo 6%positive 0) (mkToDo 5%positive 0) = true.
Proof.
  destruct (sizing_comparison_is_reflexive (mkToDo 5%positive 0) (mkToDo 6%positive 0))
    as (_ & _ & H1).
  destruct (sizing_comparison_is_reflexive (mkToDo 6%positive 0) (mkToDo 5%positive 0))
    as (_ & _ & H2).
  split; [rewrite H1 by done|rewrite H2 by done]; reflexivity.
Defined.

Lemma elem_of_requestedSizing calls v :
  v ∈ requestedSizing calls ↔ CallNeedsSizingInfoUpdate v ∈ calls.
Proof.
  unfold requestedSizing. rewrite elem_of_list_to_set, list_elem_of_omap. split.
  - intros ([v'|v'] & Hin & Heq); simplify_eq. done.
  - intros Hin. by exists (CallNeedsSizingInfoUpdate v).
Qed.

Lemma elem_of_requestedLayout calls v :
  v ∈ requestedLayout calls ↔ CallNeedsLayout v ∈ calls.
Proof.
  unfold requestedLayout. rewrite elem_of_list_to_set, list_elem_of_omap. split.
  - intros ([v'|v'] & Hin & Heq); simplify_eq. done.
  - intros Hin. by exists (CallNeedsLayout v).
Qed.

Lemma requestedSizing_cons c calls :
  requestedSizing (c :: calls)
  = match c with
    | CallNeedsSizingInfoUpdate v => {[v]} ∪ requestedSizing calls
    | CallNeedsLayout _ => requestedSizing calls
    end.
Proof. by destruct c. Qed.

Lemma requestedLayout_cons c calls :
  requestedLayout (c :: calls)
  = match c with
    | CallNeedsLayout v => {[v]} ∪ requestedLayout calls
    | CallNeedsSizingInfoUpdate _ => requestedLayout calls
    end.
Proof. by destruct c. Qed.

Lemma calls_closed_form {U} (calls : list Call) (c : Call) (w : World U) :
  foldl doCall w (c :: calls)
  = mkWorld
      (mkCoordinator (requestedSizing (c :: calls) ∪ _sizingInfoSet (coord w))
         (requestedLayout (c :: calls) ∪ _layoutSet (coord w)) true)
      (if _updateScheduled (coord w) then mainQueue w else mainQueue w ++ [DeferredUpdate])
      (ui w).
Proof.
  revert c w. induction calls as [|c' calls IH]; intros c w.
  - rewrite requestedSizing_cons, requestedLayout_cons.
    change (requestedSizing []) with (∅ : gset View).
    change (requestedLayout []) with (∅ : gset View).
    destruct c as [v|v]; simpl;
      unfold viewNeedsSizingInfoUpdate, viewNeedsLayout, needUpdate, with_coord; simpl;
      destruct (_updateScheduled (coord w)); simpl; f_equal; f_equal;
      apply set_eq; intros x; rewrite ?elem_of_union, ?elem_of_empty; tauto.
  - change (foldl doCall w (c :: c' :: calls)) with (foldl doCall (doCall w c) (c' :: calls)).
    rewrite IH, (requestedSizing_cons c), (requestedLayout_cons c).
    destruct c as [v|v]; simpl;
      unfold viewNeedsSizingInfoUpdate, viewNeedsLayout, needUpdate, with_coord; simpl;
      destruct (_updateScheduled (coord w)); simpl; f_equal; f_equal;
      apply set_eq; intros x; rewrite ?elem_of_union; tauto.
Qed.

(** X5.  Any number of calls of [viewNeedsSizingInfoUpdate] and
    [viewNeedsLayout] in a row add the views they name to the two sets,
    leave the flag set and queue one deferred callback if none was
    scheduled and none otherwise; the outcome depends on which calls were
    made, not on their order or on how often each was made. *)
Theorem registrations_coalesce {U} (w : World U) (calls : list Call) :
  calls ≠ [] →
  foldl doCall w calls
  = mkWorld
      (mkCoordinator (requestedSizing calls ∪ _sizingInfoSet (coord w))
         (requestedLayout calls ∪ _layoutSet (coord w)) true)
      (if _updateScheduled (coord w) then mainQueue w else mainQueue w ++ [DeferredUpdate])
      (ui w) ∧
  ∀ calls', (∀ c, c ∈ calls ↔ c ∈ calls') → foldl doCall w calls' = foldl doCall w calls.
Proof.
  intros Hne. destruct calls as [|c calls]; [done|].
  split; [apply calls_closed_form|].
  intros calls' Hsame. destruct calls' as [|c' calls'].
  { specialize (Hsame c). rewrite elem_of_nil in Hsame. destruct Hsame as [Hsame _].
    destruct Hsame. by left. }
  rewrite !calls_closed_form. f_equal. f_equal; f_equal; apply set_eq; intros x.
  - rewrite !elem_of_requestedSizing. symmetry. apply Hsame.
  - rewrite !elem_of_requestedLayout. symmetry. apply Hsame.
Qed.

Lemma registrations_coalesce_witness :
  mainQueue (foldl doCall (newWorld chainUi)
               [CallNeedsLayout 2%positive; CallNeedsSizingInfoUpdate 4%positive;
                CallNeedsLayout 2%positive; CallNeedsSizingInfoUpdate 3%positive])
  = [DeferredUpdate].
Proof.
  destruct (registrations_coalesce (newWorld chainUi)
              [CallNeedsLayout 2%positive; CallNeedsSizingInfoUpdate 4%positive;
               CallNeedsLayout 2%positive; CallNeedsSizingInfoUpdate 3%positive])
    as [Hform _]; [done|].
  rewrite Hform. reflexivity.
Defined.

Lemma runQueued_deferred {U} (cbS cbL : View → Ui U → Ui U * list Call)
    fuel (w : World U) queue :
  mainQueue w = DeferredUpdate :: queue →
  runQueued cbS cbL fuel w
  = sizingLoop cbS fuel []
      (mkWorld (mkCoordinator (_sizingInfoSet (coord w)) (_layoutSet (coord w)) false)
         queue (ui w)).
Proof.
  intros Hq. unfold runQueued, deferredUpdate. rewrite Hq.
  by rewrite drain_is_sizing_loop.
Qed.

(** X6.  When the sizing callbacks ask for nothing, the deferred callback
    invokes [mainThreadUpdateSizingInfo] once for every view of
    [_sizingInfoSet] and for no other view, in the order in which the
    lambda sorts them, and ends with the set empty, the flag clear and the
    rest of the queue untouched; [_layoutSet] is as it was. *)
Theorem quiet_drain_serves_each_view_once {U} (cbS cbL : View → Ui U → Ui U * list Call)
    (w : World U) (queue : list Closure) (batch : list ToDo) :
  (∀ v u, (cbS v u).2 = []) →
  mainQueue w = DeferredUpdate :: queue →
  mapM (ToDo_new (hierarchy (ui w))) (elements (_sizingInfoSet (coord w))) = Some batch →
  ∃ r, runQueued cbS cbL (S (length batch)) w = Some r ∧
       std_sort ToDo_inverted batch = Some (insertion_sort ToDo_inverted batch) ∧
       r.2 = (EvUpdateSizingInfo ∘ pView) <$> insertion_sort ToDo_inverted batch ∧
       (∀ v, invocations (EvUpdateSizingInfo v) r.2
             = if decide (v ∈ _sizingInfoSet (coord w)) then 1 else 0) ∧
       coord r.1 = mkCoordinator ∅ (_layoutSet (coord w)) false ∧
       mainQueue r.1 = queue.
Proof.
  intros Hquiet Hq Hbatch. rewrite (runQueued_deferred _ _ _ _ _ Hq).
  set (w0 := mkWorld _ queue (ui w)).
  assert (addNewRequests ToDo_inverted (_sizingInfoSet (coord w0)) (hierarchy (ui w0)) []
          = Some (insertion_sort ToDo_inverted batch)) as Hadd.
  { simpl. destruct (decide (_sizingInfoSet (coord w) = ∅)) as [He|Hne].
    - rewrite He, elements_empty in Hbatch. injection Hbatch as <-.
      rewrite He. apply addNewRequests_empty.
    - apply addNewRequests_first; [apply _|done|done]. }
  assert (pView <$> batch = elements (_sizingInfoSet (coord w))) as Hviews
    by (by eapply mapM_ToDo_new_pView).
  destruct (updateLoop_quiet_first ToDo_inverted cbS EvUpdateSizingInfo Hquiet
              (S (length batch)) [] _ w0 Hadd) as (r & Hr & Htr & Hc & Hqueue).
  { rewrite (Permutation_length (insertion_sort_perm _ _)). lia. }
  exists r. split_and!; [done| |done| |done|done].
  { unfold std_sort. rewrite strict_on_NoDup; [done|apply _|].
    apply (NoDup_fmap_1 pView). rewrite Hviews. apply NoDup_elements. }
  intros v. rewrite Htr.
  rewrite (invocations_perm _ _ ((EvUpdateSizingInfo ∘ pView) <$> batch))
    by (by rewrite insertion_sort_perm).
  rewrite list_fmap_compose, Hviews. destruct (decide _) as [Hin|Hnot].
  - apply invocations_once; [apply _|apply NoDup_elements|by apply elem_of_elements].
  - apply invocations_none. intros (y & [= <-] & Hy)%list_elem_of_fmap.
    by apply elem_of_elements in Hy.
Qed.

Lemma quiet_drain_serves_each_view_once_witness :
  ∃ r, runQueued quietCallback quietCallback 3 leafAndInnerPending = Some r ∧
       invocations (EvUpdateSizingInfo 4%positive) r.2 = 1 ∧
       invocations (EvUpdateSizingInfo 3%positive) r.2 = 0 ∧
       mainQueue r.1 = [].
Proof.
  destruct (quiet_drain_serves_each_view_once quietCallback quietCallback
              leafAndInnerPending [] [mkToDo 4%positive 3; mkToDo 2%positive 1])
    as (r & Hr & _ & _ & Hcount & _ & Hqueue).
  - done.
  - vm_compute. reflexivity.
  - vm_compute. reflexivity.
  - exists r. split_and!; [exact Hr| | |exact Hqueue].
    + rewrite Hcount. vm_compute. reflexivity.
    + rewrite Hcount. vm_compute. reflexivity.
Defined.

(** X7.  Whatever the callbacks do, when the deferred callback has ended
    every view that was in [_sizingInfoSet] at its start has had
    [mainThreadUpdateSizingInfo] invoked, and the set is empty. *)
Theorem pending_sizing_requests_are_served {U} (cbS cbL : View → Ui U → Ui U * list Call)
    (fuel : nat) (w : World U) (queue : list Closure) (r : World U * list Event) :
  mainQueue w = DeferredUpdate :: queue →
  runQueued cbS cbL fuel w = Some r →
  (∀ v, v ∈ _sizingInfoSet (coord w) → EvUpdateSizingInfo v ∈ r.2) ∧
  _sizingInfoSet (coord r.1) = ∅.
Proof.
  intros Hq Hr. rewrite (runQueued_deferred _ _ _ _ _ Hq) in Hr.
  by destruct (updateLoop_covers _ _ _ _ _ _ _ Hr) as (_ & Hcov & Hempty).
Qed.

Lemma pending_sizing_requests_are_served_witness :
  ∃ r, runQueued (countdownCallback 5%positive 6%positive) quietCallback 3 cascadePending
       = Some r ∧
       EvUpdateSizingInfo 5%positive ∈ r.2 ∧ _sizingInfoSet (coord r.1) = ∅.
Proof.
  assert (∃ r, runQueued (countdownCallback 5%positive 6%positive) quietCallback 3
                 cascadePending = Some r) as [r Hr].
  { eexists. vm_compute. reflexivity. }
  destruct (pending_sizing_requests_are_served _ _ _ cascadePending [] _ eq_refl Hr)
    as (Hserved & Hempty).
  exists r. split_and!; [exact Hr| |exact Hempty].
  apply Hserved. vm_compute. set_solver.
Defined.

(** The items that a pass makes of a view and one of its ancestors which
    it copies together: both are on its working list, the view's item
    deeper than the ancestor's. *)
Lemma snapshot_ancestor_items {U} comp (callback : View → Ui U → Ui U * list Call)
    (w : World U) n toDoList wN toDoList1 a d hops :
  passState comp callback n [] w = Some (toDoList, wN) →
  workingList comp callback n [] w = Some toDoList1 →
  a ∈ newlyAddedSet wN → d ∈ newlyAddedSet wN →
  ancestorAt (hierarchy (ui wN)) (S hops) d = Some a →
  ∃ ta td, ToDo_new (hierarchy (ui wN)) a = Some ta ∧
           ToDo_new (hierarchy (ui wN)) d = Some td ∧
           level td = level ta + S hops ∧
           ta ∈ toDoList1 ∧ td ∈ toDoList1.
Proof.
  intros Hst HL Ha Hd Hanc. unfold workingList in HL. rewrite Hst in HL. simpl in HL.
  destruct (addNewRequests_new _ _ _ _ _ _ HL Ha) as (ta & Hta & Hina).
  destruct (addNewRequests_new _ _ _ _ _ _ HL Hd) as (td & Htd & Hind).
  destruct (ToDo_new_ancestor _ _ _ _ _ Hanc Htd) as (ta' & Hta' & Hlev).
  rewrite Hta in Hta'. injection Hta' as <-.
  by exists ta, td.
Qed.

(** X8.  A pass of the first loop of a drain copies a view and one of
    its ancestors from [_sizingInfoSet].  Then the item of the view is
    popped strictly before the item of the ancestor: a pass from that one
    on that pops the ancestor's item comes after one that has popped the
    view's, whether the drain returns or not; and a drain that returns has
    invoked [mainThreadUpdateSizingInfo] on the view at an earlier place
    of its trace than on the ancestor, with no pop of the ancestor's item
    from the pass that copied them up to there, and, where the callbacks
    leave the view tree as it is, with no callback of the ancestor at
    all. *)
Theorem descendant_sized_before_ancestor {U} (cbS cbL : View → Ui U → Ui U * list Call)
    (w : World U) (n : nat) (toDoList : list ToDo) (wN : World U)
    (toDoList1 : list ToDo) (a d : View) (hops : nat) :
  passState ToDo_inverted cbS n [] w = Some (toDoList, wN) →
  workingList ToDo_inverted cbS n [] w = Some toDoList1 →
  a ∈ newlyAddedSet wN → d ∈ newlyAddedSet wN →
  ancestorAt (hierarchy (ui wN)) (S hops) d = Some a →
  ∃ ta td,
    ToDo_new (hierarchy (ui wN)) a = Some ta ∧
    ToDo_new (hierarchy (ui wN)) d = Some td ∧
    level td = level ta + S hops ∧
    (∀ k, n ≤ k → poppedAt ToDo_inverted cbS k [] w = Some ta →
          ∃ i, n ≤ i ∧ i < k ∧ poppedAt ToDo_inverted cbS i [] w = Some td) ∧
    (∀ fuel r, mainThreadUpdateNow cbS cbL fuel w = Some r →
       ∃ i j, n ≤ i ∧ i < j ∧
              poppedAt ToDo_inverted cbS i [] w = Some td ∧
              poppedAt ToDo_inverted cbS j [] w = Some ta ∧
              (∀ k, n ≤ k → k ≤ i → poppedAt ToDo_inverted cbS k [] w ≠ Some ta) ∧
              r.2 !! i = Some (EvUpdateSizingInfo d) ∧
              r.2 !! j = Some (EvUpdateSizingInfo a)) ∧
    (∀ fuel r, (∀ v u, hierarchy (cbS v u).1 = hierarchy u) →
       mainThreadUpdateNow cbS cbL fuel w = Some r →
       ∃ i j, n ≤ i ∧ i < j ∧
              r.2 !! i = Some (EvUpdateSizingInfo d) ∧
              r.2 !! j = Some (EvUpdateSizingInfo a) ∧
              ∀ k, n ≤ k → k ≤ i → r.2 !! k ≠ Some (EvUpdateSizingInfo a)).
Proof.
  intros Hst HL Ha Hd Hanc.
  destruct (snapshot_ancestor_items _ _ _ _ _ _ _ _ _ _ Hst HL Ha Hd Hanc)
    as (ta & td & Hta & Htd & Hlev & Hina & Hind).
  assert (comp_le ToDo_inverted td ta) as Hle by (apply ToDo_inverted_le_spec; lia).
  assert (td ≠ ta) as Hne by (intros ->; lia).
  exists ta, td. split_and!; [done|done|done| | |].
  - intros k Hk Hpop.
    by eapply (pass_pops_in_order ToDo_inverted cbS ToDo_inverted_le_trans
                 ToDo_inverted_le_antisymm ToDo_inverted_total n k [] w toDoList1 td ta);
      [constructor|..].
  - intros fuel r Hr. rewrite drain_is_sizing_loop in Hr.
    rewrite <-(ToDo_new_pView _ _ _ Hta), <-(ToDo_new_pView _ _ _ Htd).
    by eapply (pass_pops_both ToDo_inverted cbS EvUpdateSizingInfo ToDo_inverted_le_trans
                 ToDo_inverted_le_antisymm ToDo_inverted_total fuel n [] w r toDoList1 td ta);
      [constructor|..].
  - intros fuel r Hkept Hr. rewrite drain_is_sizing_loop in Hr.
    rewrite <-(ToDo_new_pView _ _ _ Hta), <-(ToDo_new_pView _ _ _ Htd).
    by eapply (pass_views_in_order ToDo_inverted cbS EvUpdateSizingInfo Hkept
                 ToDo_inverted_le_trans ToDo_inverted_le_antisymm ToDo_inverted_total _
                 fuel n w r toDoList1 td ta).
Qed.

Lemma descendant_sized_before_ancestor_witness :
  ∃ r, mainThreadUpdateNow (countdownCallbacks 5%positive [2%positive; 4%positive])
         quietCallback 4 chainCascadePending = Some r ∧
       r.2 = [EvUpdateSizingInfo 5%positive; EvUpdateSizingInfo 4%positive;
              EvUpdateSizingInfo 2%positive] ∧
       ∃ i j, 1 ≤ i ∧ i < j ∧
              r.2 !! i = Some (EvUpdateSizingInfo 4%positive) ∧
              r.2 !! j = Some (EvUpdateSizingInfo 2%positive) ∧
              ∀ k, 1 ≤ k → k ≤ i → r.2 !! k ≠ Some (EvUpdateSizingInfo 2%positive).
Proof.
  assert (∃ r, mainThreadUpdateNow (countdownCallbacks 5%positive [2%positive; 4%positive])
                 quietCallback 4 chainCascadePending = Some r ∧
               r.2 = [EvUpdateSizingInfo 5%positive; EvUpdateSizingInfo 4%positive;
                      EvUpdateSizingInfo 2%positive]) as (r & Hr & Htr)
    by (eexists; split; vm_compute; reflexivity).
  assert (∃ st, passState ToDo_inverted
                  (countdownCallbacks 5%positive [2%positive; 4%positive]) 1 []
                  chainCascadePending = Some st) as [[toDoList wN] Hst]
    by (eexists; vm_compute; reflexivity).
  pose proof Hst as Heq. vm_compute in Heq. injection Heq as HtoDoList HwN.
  exists r. split; [exact Hr|]. split; [exact Htr|].
  destruct (descendant_sized_before_ancestor
              (countdownCallbacks 5%positive [2%positive; 4%positive]) quietCallback
              chainCascadePending 1 toDoList wN
              [mkToDo 4%positive 3; mkToDo 2%positive 1] 2%positive 4%positive 1 Hst)
    as (ta & td & _ & _ & _ & _ & _ & Hboth).
  - vm_compute. reflexivity.
  - rewrite <-HwN. vm_compute. set_solver.
  - rewrite <-HwN. vm_compute. set_solver.
  - rewrite <-HwN. vm_compute. reflexivity.
  - destruct (Hboth 4 r) as (i & j & Hi & Hij & Hti & Htj & Hnone).
    + intros v u. unfold countdownCallbacks.
      destruct (decide (v = 5%positive)); [destruct (user u)|]; reflexivity.
    + exact Hr.
    + exists i, j. split_and!; [exact Hi|exact Hij|exact Hti|exact Htj|exact Hnone].
Defined.

(** X9.  Run on its own, [mainThreadUpdateNow] is its first loop: the
    second loop finds [_sizingInfoSet] empty and ends at once, so that a
    drain invokes no [mainThreadLayout] and takes nothing out of
    [_layoutSet]. *)
Theorem drain_is_its_first_loop {U} (cbS cbL : View → Ui U → Ui U * list Call)
    (fuel : nat) (w : World U) :
  mainThreadUpdateNow cbS cbL fuel w = sizingLoop cbS fuel [] w ∧
  ∀ r, mainThreadUpdateNow cbS cbL fuel w = Some r →
       (∀ v, EvLayout v ∉ r.2) ∧
       _layoutSet (coord w) ⊆ _layoutSet (coord r.1).
Proof.
  split.
  - unfold mainThreadUpdateNow.
    destruct (sizingLoop cbS fuel [] w) as [a|] eqn:Ha; simpl; [|done].
    destruct (updateLoop_covers _ _ _ _ _ _ _ Ha) as (_ & _ & Hempty).
    destruct fuel as [|fuel]; [done|].
    unfold layoutLoop. rewrite (updateLoop_idle _ _ _ _ _ Hempty). simpl.
    rewrite app_nil_r. by destruct a.
  - intros r Hr. pose proof Hr as Hr'. rewrite drain_is_sizing_loop in Hr'.
    split; [|by apply updateLoop_onlySchedules in Hr' as (_&_&?&_)].
    intros v Hv. by destruct (updateLoop_events _ _ _ _ _ _ _ Hr' _ Hv).
Qed.

Lemma drain_is_its_first_loop_witness :
  ∃ r, mainThreadUpdateNow quietCallback quietCallback 3 parentChildLayoutPending = Some r ∧
       1%positive ∈ _layoutSet (coord r.1) ∧ EvLayout 1%positive ∉ r.2.
Proof.
  assert (∃ r, mainThreadUpdateNow quietCallback quietCallback 3 parentChildLayoutPending
               = Some r) as [r Hr].
  { eexists. vm_compute. reflexivity. }
  destruct (drain_is_its_first_loop quietCallback quietCallback 3 parentChildLayoutPending)
    as [_ Hnever].
  destruct (Hnever r Hr) as [Hnone Hkept].
  exists r. split_and!; [exact Hr| |apply Hnone].
  apply Hkept. vm_compute. set_solver.
Defined.

(** X10.  What the second loop does copy, from [_sizingInfoSet], it
    serves parents first.  A pass of the loop copies a view and one of its
    ancestors.  Then the item of the ancestor is popped strictly before
    the item of the view: a pass from that one on that pops the view's
    item comes after one that has popped the ancestor's, whether the loop
    returns or not; and a loop that returns has invoked [mainThreadLayout]
    on the ancestor at an earlier place of its trace than on the view,
    with no pop of the view's item from the pass that copied them up to
    there, and, where the callbacks leave the view tree as it is, with no
    callback of the view at all. *)
Theorem second_loop_serves_parents_first {U} (cbL : View → Ui U → Ui U * list Call)
    (w : World U) (n : nat) (toDoList : list ToDo) (wN : World U)
    (toDoList1 : list ToDo) (a d : View) (hops : nat) :
  passState ToDo_lt cbL n [] w = Some (toDoList, wN) →
  workingList ToDo_lt cbL n [] w = Some toDoList1 →
  a ∈ newlyAddedSet wN → d ∈ newlyAddedSet wN →
  ancestorAt (hierarchy (ui wN)) (S hops) d = Some a →
  ∃ ta td,
    ToDo_new (hierarchy (ui wN)) a = Some ta ∧
    ToDo_new (hierarchy (ui wN)) d = Some td ∧
    level td = level ta + S hops ∧
    (∀ k, n ≤ k → poppedAt ToDo_lt cbL k [] w = Some td →
          ∃ i, n ≤ i ∧ i < k ∧ poppedAt ToDo_lt cbL i [] w = Some ta) ∧
    (∀ fuel r, layoutLoop cbL fuel [] w = Some r →
       ∃ i j, n ≤ i ∧ i < j ∧
              poppedAt ToDo_lt cbL i [] w = Some ta ∧
              poppedAt ToDo_lt cbL j [] w = Some td ∧
              (∀ k, n ≤ k → k ≤ i → poppedAt ToDo_lt cbL k [] w ≠ Some td) ∧
              r.2 !! i = Some (EvLayout a) ∧
              r.2 !! j = Some (EvLayout d)) ∧
    (∀ fuel r, (∀ v u, hierarchy (cbL v u).1 = hierarchy u) →
       layoutLoop cbL fuel [] w = Some r →
       ∃ i j, n ≤ i ∧ i < j ∧
              r.2 !! i = Some (EvLayout a) ∧
              r.2 !! j = Some (EvLayout d) ∧
              ∀ k, n ≤ k → k ≤ i → r.2 !! k ≠ Some (EvLayout d)).
Proof.
  intros Hst HL Ha Hd Hanc.
  destruct (snapshot_ancestor_items _ _ _ _ _ _ _ _ _ _ Hst HL Ha Hd Hanc)
    as (ta & td & Hta & Htd & Hlev & Hina & Hind).
  assert (comp_le ToDo_lt ta td) as Hle by (apply ToDo_le_spec; lia).
  assert (ta ≠ td) as Hne by (intros ->; lia).
  exists ta, td. split_and!; [done|done|done| | |].
  - intros k Hk Hpop.
    by eapply (pass_pops_in_order ToDo_lt cbL ToDo_le_trans
                 ToDo_le_antisymm ToDo_lt_total n k [] w toDoList1 ta td);
      [constructor|..].
  - intros fuel r Hr.
    rewrite <-(ToDo_new_pView _ _ _ Hta), <-(ToDo_new_pView _ _ _ Htd).
    by eapply (pass_pops_both ToDo_lt cbL EvLayout ToDo_le_trans
                 ToDo_le_antisymm ToDo_lt_total fuel n [] w r toDoList1 ta td);
      [constructor|..].
  - intros fuel r Hkept Hr.
    rewrite <-(ToDo_new_pView _ _ _ Hta), <-(ToDo_new_pView _ _ _ Htd).
    by eapply (pass_views_in_order ToDo_lt cbL EvLayout Hkept
                 ToDo_le_trans ToDo_le_antisymm ToDo_lt_total _
                 fuel n w r toDoList1 ta td).
Qed.

Lemma second_loop_serves_parents_first_witness :
  ∃ r, layoutLoop (countdownCallbacks 5%positive [2%positive; 4%positive]) 4 []
         chainCascadePending = Some r ∧
       r.2 = [EvLayout 5%positive; EvLayout 2%positive; EvLayout 4%positive] ∧
       ∃ i j, 1 ≤ i ∧ i < j ∧
              r.2 !! i = Some (EvLayout 2%positive) ∧
              r.2 !! j = Some (EvLayout 4%positive) ∧
              ∀ k, 1 ≤ k → k ≤ i → r.2 !! k ≠ Some (EvLayout 4%positive).
Proof.
  assert (∃ r, layoutLoop (countdownCallbacks 5%positive [2%positive; 4%positive]) 4 []
                 chainCascadePending = Some r ∧
               r.2 = [EvLayout 5%positive; EvLayout 2%positive; EvLayout 4%positive])
    as (r & Hr & Htr)
    by (eexists; split; vm_compute; reflexivity).
  assert (∃ st, passState ToDo_lt
                  (countdownCallbacks 5%positive [2%positive; 4%positive]) 1 []
                  chainCascadePending = Some st) as [[toDoList wN] Hst]
    by (eexists; vm_compute; reflexivity).
  pose proof Hst as Heq. vm_compute in Heq. injection Heq as HtoDoList HwN.
  exists r. split; [exact Hr|]. split; [exact Htr|].
  destruct (second_loop_serves_parents_first
              (countdownCallbacks 5%positive [2%positive; 4%positive])
              chainCascadePending 1 toDoList wN
              [mkToDo 2%positive 1; mkToDo 4%positive 3] 2%positive 4%positive 1 Hst)
    as (ta & td & _ & _ & _ & _ & _ & Hboth).
  - vm_compute. reflexivity.
  - rewrite <-HwN. vm_compute. set_solver.
  - rewrite <-HwN. vm_compute. set_solver.
  - rewrite <-HwN. vm_compute. reflexivity.
  - destruct (Hboth 4 r) as (i & j & Hi & Hij & Hti & Htj & Hnone).
    + intros v u. unfold countdownCallbacks.
      destruct (decide (v = 5%positive)); [destruct (user u)|]; reflexivity.
    + exact Hr.
    + exists i, j. split_and!; [exact Hi|exact Hij|exact Hti|exact Htj|exact Hnone].
Defined.

(** X11.  When the first callback that the deferred callback invokes
    calls the coordinator, the drain ends with the flag set and a new
    deferred callback queued, although the request was served by the
    drain that was running. *)
Theorem rerequest_schedules_another_drain {U} (cbS cbL : View → Ui U → Ui U * list Call)
    (fuel : nat) (w : World U) (r : World U * list Event) (toDo : ToDo) (rest : list ToDo) :
  mainQueue w = [DeferredUpdate] →
  addNewRequests ToDo_inverted (_sizingInfoSet (coord w)) (hierarchy (ui w)) []
    = Some (toDo :: rest) →
  (cbS (pView toDo) (ui w)).2 ≠ [] →
  runQueued cbS cbL fuel w = Some r →
  _updateScheduled (coord r.1) = true ∧ mainQueue r.1 = [DeferredUpdate].
Proof.
  intros Hq Hadd Hasks Hr. rewrite (runQueued_deferred _ _ _ _ _ Hq) in Hr.
  apply updateLoop_inv in Hr as (fuel' & batch & _ & Hadd' & Hr).
  simpl in Hadd'. rewrite Hadd in Hadd'. injection Hadd' as <-.
  destruct Hr as (r' & Hloop & ->). simpl.
  apply updateLoop_onlySchedules in Hloop as (Hflag & _ & _ & Honce).
  unfold invoke in Hflag, Honce. simpl in Hflag, Honce.
  destruct ((cbS (pView toDo) (ui w)).2) as [|c calls]; [done|].
  rewrite calls_closed_form in Hflag, Honce. simpl in Hflag, Honce.
  specialize (Hflag eq_refl). specialize (Honce eq_refl).
  unfold scheduledOnce in Honce. by rewrite Hflag in Honce.
Qed.

Lemma rerequest_schedules_another_drain_witness :
  ∃ r, runQueued (countdownCallback 5%positive 6%positive) quietCallback 3 cascadePending
       = Some r ∧
       _updateScheduled (coord r.1) = true ∧ mainQueue r.1 = [DeferredUpdate].
Proof.
  assert (∃ r, runQueued (countdownCallback 5%positive 6%positive) quietCallback 3
                 cascadePending = Some r) as [r Hr].
  { eexists. vm_compute. reflexivity. }
  exists r. split; [exact Hr|].
  eapply (rerequest_schedules_another_drain (countdownCallback 5%positive 6%positive)
            quietCallback 3 cascadePending r (mkToDo 5%positive 0) []).
  - reflexivity.
  - vm_compute. reflexivity.
  - intros Hnil. vm_compute in Hnil. discriminate Hnil.
  - exact Hr.
Defined.

(** X12.  A drain that follows a drain that has ended invokes nothing,
    be it called directly or taken from the queue. *)
Theorem drain_after_drain_invokes_nothing {U} (cbS cbL : View → Ui U → Ui U * list Call)
    (fuel fuel' : nat) (w : World U) (r : World U * list Event) :
  mainThreadUpdateNow cbS cbL fuel w = Some r →
  mainThreadUpdateNow cbS cbL (S fuel') r.1 = Some (r.1, []) ∧
  ∃ w', runQueued cbS cbL (S fuel') r.1 = Some (w', []) ∧
        mainQueue w' = tail (mainQueue r.1).
Proof.
  intros Hr. rewrite drain_is_sizing_loop in Hr.
  destruct (updateLoop_covers _ _ _ _ _ _ _ Hr) as (_ & _ & Hempty).
  split; [by apply drain_without_sizing|].
  destruct r as [[c queue u] tr]. simpl in *.
  destruct queue as [|[] queue].
  - by eexists.
  - unfold runQueued, deferredUpdate. simpl.
    rewrite drain_without_sizing by done. by eexists.
Qed.

Lemma drain_after_drain_invokes_nothing_witness :
  ∃ r w', mainThreadUpdateNow (countdownCallback 5%positive 5%positive) quietCallback 4
            (viewNeedsSizingInfoUpdate 5%positive (newWorld (mkUi ∅ 2))) = Some r ∧
          mainQueue r.1 = [DeferredUpdate] ∧
          runQueued (countdownCallback 5%positive 5%positive) quietCallback 1 r.1
          = Some (w', []).
Proof.
  assert (∃ r, mainThreadUpdateNow (countdownCallback 5%positive 5%positive) quietCallback 4
                 (viewNeedsSizingInfoUpdate 5%positive (newWorld (mkUi ∅ 2))) = Some r)
    as [r Hr].
  { eexists. vm_compute. reflexivity. }
  destruct (drain_after_drain_invokes_nothing _ _ _ 0 _ _ Hr) as (_ & w' & Hrun & _).
  exists r, w'. split_and!; [exact Hr| |exact Hrun].
  revert Hr. vm_compute. by intros [= <-].
Defined.

(** X13.  The first loop invokes [mainThreadUpdateSizingInfo] only for
    views that were asked for: every view it serves was in
    [_sizingInfoSet] or in the list at its start, or was named in a call
    made by the callback of a view it served. *)
Theorem served_views_were_requested {U} (cbS : View → Ui U → Ui U * list Call)
    (asked : View → Prop) (fuel : nat) (toDoList : list ToDo) (w : World U)
    (r : World U * list Event) :
  (∀ v, v ∈ _sizingInfoSet (coord w) → asked v) →
  (∀ t, t ∈ toDoList → asked (pView t)) →
  (∀ v u b, asked v → CallNeedsSizingInfoUpdate b ∈ (cbS v u).2 → asked b) →
  sizingLoop cbS fuel toDoList w = Some r →
  ∀ v, EvUpdateSizingInfo v ∈ r.2 → asked v.
Proof.
  intros Hset Hlist Hcalls. revert toDoList w r Hset Hlist.
  induction fuel as [|fuel IH]; intros toDoList w r Hset Hlist Hr; [done|].
  apply updateLoop_inv in Hr as (fuel' & batch & [= <-] & Hadd & Hr).
  assert (∀ t, t ∈ batch → asked (pView t)) as Hbatch.
  { intros t Ht. destruct (addNewRequests_Some _ _ _ _ _ Hadd) as (added & Hm & Hp & _).
    rewrite Hp in Ht. apply elem_of_app in Ht as [Ht|Ht]; [by apply Hlist|].
    apply mapM_Some_1 in Hm. apply list_elem_of_lookup in Ht as [i Hi].
    destruct (Forall2_lookup_r _ _ _ _ _ Hm Hi) as (x & Hx & Hnew).
    rewrite (ToDo_new_pView _ _ _ Hnew). apply Hset, elem_of_elements.
    by eapply list_elem_of_lookup_2. }
  destruct batch as [|toDo rest].
  { subst r. intros v Hv. by apply elem_of_nil in Hv. }
  destruct Hr as (r' & Hloop & ->). simpl.
  intros v [[= ->]|Hv]%elem_of_cons; [apply Hbatch; by left|].
  eapply (IH rest _ r'); [| |exact Hloop|exact Hv].
  - intros b Hb. unfold invoke in Hb.
    assert (∀ calls (w0 : World U) b,
              b ∈ _sizingInfoSet (coord (foldl doCall w0 calls)) →
              b ∈ _sizingInfoSet (coord w0) ∨ CallNeedsSizingInfoUpdate b ∈ calls) as Hfold.
    { clear. induction calls as [|c calls IHc]; intros w0 b; simpl; [by left|].
      intros [Hb|Hb]%IHc; [|right; by right].
      destruct c as [v|v]; simpl in Hb;
        unfold viewNeedsSizingInfoUpdate, viewNeedsLayout, needUpdate in Hb;
        simpl in Hb; destruct (_updateScheduled (coord w0)); simpl in Hb.
      - apply elem_of_union in Hb as [->%elem_of_singleton|Hb]; [right; by left|by left].
      - apply elem_of_union in Hb as [->%elem_of_singleton|Hb]; [right; by left|by left].
      - by left.
      - by left. }
    apply Hfold in Hb as [Hb|Hb].
    + simpl in Hb. by apply elem_of_empty in Hb.
    + eapply Hcalls; [|exact Hb]. apply Hbatch. by left.
  - intros t Ht. apply Hbatch. by right.
Qed.

Lemma served_views_were_requested_witness :
  ∃ r, sizingLoop (countdownCallback 5%positive 6%positive) 3 [] cascadePending = Some r ∧
       EvUpdateSizingInfo 7%positive ∉ r.2.
Proof.
  assert (∃ r, sizingLoop (countdownCallback 5%positive 6%positive) 3 [] cascadePending
               = Some r) as [r Hr].
  { eexists. vm_compute. reflexivity. }
  exists r. split; [exact Hr|]. intros Hin.
  assert (7%positive = 5%positive ∨ 7%positive = 6%positive) as [?|?]; [|done|done].
  eapply (served_views_were_requested (countdownCallback 5%positive 6%positive)
            (λ v, v = 5%positive ∨ v = 6%positive) 3 [] cascadePending r);
    [| | |exact Hr|exact Hin].
  - intros v Hv. left.
    change (v ∈ ({[5%positive]} ∪ ∅ : gset View)) in Hv.
    apply elem_of_union in Hv as [Hv|Hv]; [by apply elem_of_singleton in Hv|].
    by apply elem_of_empty in Hv.
  - intros t Ht. by apply elem_of_nil in Ht.
  - intros v u b _. unfold countdownCallback.
    destruct (decide (v = 5%positive)); [destruct (user u)|]; simpl;
      rewrite ?elem_of_nil, ?list_elem_of_singleton; [done| |done].
    intros [= ->]. by right.
Defined.
